(** * tox/core/variant.h: a recursive tagged union and its visitors

    The header defines [variant_storage<Tag, Head, Tail...>], a union of a
    [variant_member<Tag, Head>] (the tag followed by a [Head]) and the
    storage of the remaining alternatives, together with
    [variant_visitor<Result, Types...>], a handler per alternative.

    The embedding keeps the shape of the header: every member function that
    recurses through [tail] is a [Fixpoint] over the list of alternative
    types, objects live at locations of a heap, and the constructors,
    destructors and handlers that run are recorded in a log. *)

From Stdlib Require Import ZArith.
From stdpp Require Import base decidable option list gmap strings.

Local Open Scope Z_scope.

(** ** Payload types

    What the header asks of the types of the list: they can be told apart
    at compile time, copied, moved and destroyed.  A copy or move yields
    the same value and may throw; a move leaves its source in the state
    [moved_from]. *)
Class Payload (ty : Type) := {
  ty_eq_dec :: EqDecision ty;
  val : ty → Type;
  copy_throws : ∀ T, val T → bool;
  move_throws : ∀ T, val T → bool;
  moved_from : ∀ T, val T → val T;
}.

(** A live payload object: its type and its value. *)
Definition object `{Payload ty} : Type := {T : ty & val T}.

(** ** Tags: [index], [invalid_index] and the [static_assert] *)
Section tags.
Context {ty : Type}.
(** Width of the unsigned type [Tag]; [variant] fixes it to 8. *)
Variable bits : Z.

(** Conversion of an integer to the unsigned [Tag]. *)
Definition to_tag (z : Z) : Z := z mod 2 ^ bits.

(** [static Tag const index = sizeof... (Tail)] *)
Definition index (Tail : list ty) : Z := to_tag (Z.of_nat (length Tail)).

(** [static Tag const invalid_index = -1] *)
Definition invalid_index : Z := to_tag (-1).

(** [static_assert (static_cast<std::size_t> (index) == sizeof... (Tail)
    && index < invalid_index)] *)
Definition static_assert (Tail : list ty) : bool :=
  (index Tail =? Z.of_nat (length Tail)) && (index Tail <? invalid_index).

(** Instantiating the union for [Head :: Tail] checks the assertion and
    instantiates [tail_type]; the empty union has no assertion. *)
Fixpoint instantiates (Ts : list ty) : bool :=
  match Ts with
  | [] => true
  | _ :: Tail => static_assert Tail && instantiates Tail
  end.

(** The [index] member of every level, outermost first. *)
Fixpoint indices (Ts : list ty) : list Z :=
  match Ts with
  | [] => []
  | _ :: Tail => index Tail :: indices Tail
  end.

(** The tags of the alternatives, in the order of the list; a list that
    fails a [static_assert] assigns none. *)
Definition assigned_tags (Ts : list ty) : option (list Z) :=
  if instantiates Ts then Some (indices Ts) else None.
End tags.

(** ** Memory, log and the monad of the member functions *)
Definition loc := nat.

(** Where a payload object is constructed or destroyed: in the storage of
    the cell at a location, or as the by-value argument of a
    [std::function]. *)
Inductive place := InCell (l : loc) | Argument.

Section machine.
Context `{Payload ty}.

(** The bytes of a union: the tag, shared by [head.tag] of every level,
    and the payload object that is alive in them, if any.  Bytes on which
    no constructor has run yet hold no payload; what their tag field holds
    means nothing to a constructor, which may read [head.tag] only after
    it has constructed a [head]. *)
Record variant_storage := Storage { tag : Z; payload : option object }.

(** What runs: the copy constructor, move constructor or destructor of a
    payload object at a place, and the handler at a position of a
    visitor, each with the value it is given. *)
Inductive event :=
| CopyCtor (p : place) (o : object)
| MoveCtor (p : place) (o : object)
| Dtor (p : place) (o : object)
| Invoke (i : nat) (o : object).

Record state := State { heap : gmap loc variant_storage; log : list event }.

(** How a call ends: it returns; a payload constructor throws; an
    [assert] fails and the program halts; the behaviour is undefined, as
    an object is used that is not alive, storage that does not exist, or
    a tag that no constructor wrote; or the call is rejected at compile
    time. *)
Inductive outcome (A : Type) :=
| Ret (a : A)
| Throw
| Abort (msg : string)
| Undefined
| IllFormed.
Global Arguments Ret {A} a.
Global Arguments Throw {A}.
Global Arguments Abort {A} msg.
Global Arguments Undefined {A}.
Global Arguments IllFormed {A}.

Definition M (A : Type) : Type := state → outcome A * state.

Definition ret {A} (a : A) : M A := λ σ, (Ret a, σ).

Definition bind {A B} (m : M A) (f : A → M B) : M B :=
  λ σ, match m σ with
       | (Ret a, σ') => f a σ'
       | (Throw, σ') => (Throw, σ')
       | (Abort msg, σ') => (Abort msg, σ')
       | (Undefined, σ') => (Undefined, σ')
       | (IllFormed, σ') => (IllFormed, σ')
       end.

Definition throw {A} : M A := λ σ, (Throw, σ).
Definition undefined {A} : M A := λ σ, (Undefined, σ).
Definition ill_formed {A} : M A := λ σ, (IllFormed, σ).

(** [assert (b)] with assertions enabled. *)
Definition assert_ (b : bool) (msg : string) : M unit :=
  λ σ, if b then (Ret tt, σ) else (Abort msg, σ).

Definition emit (e : event) : M unit :=
  λ σ, (Ret tt, State (heap σ) (log σ ++ [e])).

Definition load (l : loc) : M variant_storage :=
  λ σ, match heap σ !! l with
       | Some c => (Ret c, σ)
       | None => (Undefined, σ)
       end.

Definition store (l : loc) (c : variant_storage) : M unit :=
  λ σ, match heap σ !! l with
       | Some _ => (Ret tt, State (<[l := c]> (heap σ)) (log σ))
       | None => (Undefined, σ)
       end.
End machine.

Global Instance M_ret `{Payload ty} : MRet M := @ret _ _.
Global Instance M_bind `{Payload ty} : MBind M := λ A B f m, bind m f.

(** ** [variant_visitor<Result, Types...>] *)
Section visitor.
Context `{Payload ty}.

(** The derived class holds [head_fun_] and inherits the visitor of the
    tail.  A handler is taken as a function of its argument: what it
    returns is all it does.  A callable that throws or writes to a cell is
    a visitor of the other kind, [∀ T, val T → M R], which [operator ()]
    and [dispatch] take. *)
Inductive variant_visitor (R : Type) : list ty → Type :=
| visitor_nil : variant_visitor R []
| visitor_cons (Head : ty) (Tail : list ty)
    (head_fun_ : val Head → R) (base : variant_visitor R Tail) :
    variant_visitor R (Head :: Tail).
Global Arguments visitor_nil {R}.
Global Arguments visitor_cons {R} Head {Tail} head_fun_ base.

(** The handlers in the order of the constructor's arguments. *)
Fixpoint handler_at {R Ts} (vis : variant_visitor R Ts) (i : nat) :
    option {T : ty & val T → R} :=
  match vis with
  | visitor_nil => None
  | visitor_cons Head f base =>
      match i with
      | O => Some (existT Head f)
      | S j => handler_at base j
      end
  end.

(** Overload resolution among the [operator ()] of the class and those
    its [using] declaration brings in: the overload of the most derived
    class that takes a [T const &]; the empty visitor only has the
    nullary one. *)
Fixpoint overload {R Ts} (vis : variant_visitor R Ts) (i : nat) (T : ty) :
    option (nat * (val T → R)) :=
  match vis with
  | visitor_nil => None
  | visitor_cons Head f base =>
      match decide (Head = T) with
      | left e => Some (i, eq_rect Head (λ U, val U → R) f T e)
      | right _ => overload base (S i) T
      end
  end.

(** [return head_fun_ (value)], [head_fun_] being a
    [std::function<Result (Head)>]: the argument is copied into the
    parameter, the handler runs, the parameter is destroyed. *)
Definition call_head_fun {R} (i : nat) (T : ty) (f : val T → R)
    (value : val T) : M R :=
  emit (CopyCtor Argument (existT T value)) ;;
  if copy_throws T value then throw
  else
    emit (Invoke i (existT T value)) ;;
    emit (Dtor Argument (existT T value)) ;;
    ret (f value).

(** [v (value)] for a [variant_visitor] [v]. *)
Definition visitor_call {R Ts} (vis : variant_visitor R Ts)
    (T : ty) (value : val T) : M R :=
  match overload vis 0 T with
  | Some (i, f) => call_head_fun i T f value
  | None => ill_formed
  end.
End visitor.

(** ** [variant_storage<Tag, Types...>] *)
Section members.
Context `{Payload ty}.
Variable bits : Z.

(** Access to [head.value] as a [Head]: defined only while an object of
    that type is alive in the storage. *)
Definition head_value (Head : ty) (l : loc) : M object :=
  c ← load l;
  match payload c with
  | Some o => if decide (projT1 o = Head) then ret o else undefined
  | None => undefined
  end.

Definition set_payload (l : loc) (p : option object) : M unit :=
  c ← load l; store l (Storage (tag c) p).

Definition set_tag (l : loc) (t : Z) : M unit :=
  c ← load l; store l (Storage t (payload c)).

(** Copy construction of a [Head] in [head.value]. *)
Definition copy_value (this : loc) (o : object) : M unit :=
  emit (CopyCtor (InCell this) o) ;;
  if copy_throws (projT1 o) (projT2 o) then throw
  else set_payload this (Some o).

(** Move construction of a [Head] in [head.value] from the payload
    of [rhs]. *)
Definition move_value (this rhs : loc) (o : object) : M unit :=
  emit (MoveCtor (InCell this) o) ;;
  if move_throws (projT1 o) (projT2 o) then throw
  else
    set_payload this (Some o) ;;
    set_payload rhs (Some (existT (projT1 o) (moved_from _ (projT2 o)))).

(** [explicit variant_storage (Head const &head) : head { index, head }]
    and the template that forwards any other type to [tail]; the empty
    union rejects every type. *)
Fixpoint value_construct (Ts : list ty) (this : loc) (T : ty)
    (value : val T) : M unit :=
  match Ts with
  | [] => ill_formed
  | Head :: Tail =>
      if decide (T = Head) then
        store this (Storage (index bits Tail) None) ;;
        copy_value this (existT T value)
      else value_construct Tail this T value
  end.

(** [variant_storage () { head.tag = invalid_index; }] *)
Definition default_construct (this : loc) : M unit :=
  store this (Storage (invalid_index bits) None).

(** [~variant_storage ()]; the destructor of the empty union is
    trivial. *)
Fixpoint destroy (Ts : list ty) (this : loc) : M unit :=
  match Ts with
  | [] => ret tt
  | Head :: Tail =>
      c ← load this;
      if tag c =? index bits Tail then
        o ← head_value Head this;
        emit (Dtor (InCell this) o) ;;
        set_payload this None
      else destroy Tail this
  end.

(** [head.tag] of the cell under construction, as the assertion of the
    copy and move constructors reads it: it has a value once a [head] has
    been constructed in the cell, at this level or at a level of [tail],
    and none before. *)
Definition head_tag (this : loc) (constructed : bool) : M Z :=
  if constructed then c ← load this; mret (tag c) else undefined.

(** [variant_storage (variant_storage const &rhs)].  The copy constructor
    of [head_type] copies the tag, then the value; the copy constructor
    of the empty union is the implicit one and, whatever bytes it copies,
    constructs no [head].  The answer tells whether a [head] was
    constructed. *)
Fixpoint copy_members (Ts : list ty) (this rhs : loc) : M bool :=
  match Ts with
  | [] => mret false
  | Head :: Tail =>
      r ← load rhs;
      constructed ←
        (if tag r =? index bits Tail then
           store this (Storage (tag r) None) ;;
           o ← head_value Head rhs;
           copy_value this o ;;
           mret true
         else copy_members Tail this rhs);
      t ← head_tag this constructed;
      r' ← load rhs;
      assert_ (t =? tag r') "head.tag == rhs.head.tag" ;;
      mret constructed
  end.

Definition copy_construct (Ts : list ty) (this rhs : loc) : M unit :=
  copy_members Ts this rhs ;; mret tt.

(** [variant_storage (variant_storage &&rhs)], in the same way. *)
Fixpoint move_members (Ts : list ty) (this rhs : loc) : M bool :=
  match Ts with
  | [] => mret false
  | Head :: Tail =>
      r ← load rhs;
      constructed ←
        (if tag r =? index bits Tail then
           store this (Storage (tag r) None) ;;
           o ← head_value Head rhs;
           move_value this rhs o ;;
           mret true
         else move_members Tail this rhs);
      t ← head_tag this constructed;
      r' ← load rhs;
      assert_ (t =? tag r') "head.tag == rhs.head.tag" ;;
      mret constructed
  end.

Definition move_construct (Ts : list ty) (this rhs : loc) : M unit :=
  move_members Ts this rhs ;; mret tt.

(** [operator =]: destroy self, renew self.  For a type that is not in
    the list the constructor it names does not instantiate: the assignment
    does not compile, and nothing runs. *)
Definition assign (Ts : list ty) (this : loc) (T : ty) (value : val T) :
    M loc :=
  if decide (T ∈ Ts) then
    destroy Ts this ;;
    value_construct Ts this T value ;;
    ret this
  else ill_formed.

(** [bool empty () const] *)
Definition empty (this : loc) : M bool :=
  c ← load this; ret (tag c =? invalid_index bits).

(** [void clear ()] *)
Definition clear (Ts : list ty) (this : loc) : M unit :=
  destroy Ts this ;;
  set_tag this (invalid_index bits).

(** [dispatch<Result> (v)]; in the empty union the body is an assertion
    that fails, with no [return] after it. *)
Fixpoint dispatch {R} (Ts : list ty) (this : loc)
    (v : ∀ T, val T → M R) : M R :=
  match Ts with
  | [] => assert_ false "Attempted to visit empty variant" ;; undefined
  | Head :: Tail =>
      c ← load this;
      if tag c =? index bits Tail then
        o ← head_value Head this;
        v (projT1 o) (projT2 o)
      else dispatch Tail this v
  end.

(** [operator () (Visitor const &v)], a member of the non-empty union. *)
Definition call {R} (Ts : list ty) (this : loc) (v : ∀ T, val T → M R) :
    M R :=
  match Ts with
  | [] => ill_formed
  | _ :: _ => dispatch Ts this v
  end.

(** [Result visit (visitor<Result> const &v) const] *)
Definition visit {R} (Ts : list ty) (this : loc)
    (v : variant_visitor R Ts) : M R :=
  match Ts with
  | [] => ill_formed
  | _ :: _ => dispatch Ts this (@visitor_call _ _ R Ts v)
  end.

(** [struct visitor_accept] and [visitor_accept<Result> visit () const] *)
Record visitor_accept := VisitorAccept { variant_ : loc }.

Definition visit_accept (Ts : list ty) (this : loc) : M visitor_accept :=
  match Ts with
  | [] => ill_formed
  | _ :: _ => ret (VisitorAccept this)
  end.

(** [Result operator >>= (visitor<Result> const &v) const] *)
Definition accept_bind {R} (Ts : list ty) (a : visitor_accept)
    (v : variant_visitor R Ts) : M R :=
  dispatch Ts (variant_ a) (@visitor_call _ _ R Ts v).
End members.

(** ** The tag a value constructor stores *)
Section tag_of.
Context `{Payload ty}.
Variable bits : Z.

(** The [index] of the first level whose [Head] is [T]: the level whose
    non-template constructor is chosen for a [T const &]. *)
Fixpoint tag_of (Ts : list ty) (T : ty) : option Z :=
  match Ts with
  | [] => None
  | Head :: Tail =>
      if decide (T = Head) then Some (index bits Tail) else tag_of Tail T
  end.

(** The cell holds the value [x] of the alternative [T]: [x] is alive in
    it and its tag is the tag of [T]. *)
Definition holds (Ts : list ty) (T : ty) (x : val T) (c : variant_storage) :
    Prop :=
  ∃ t, tag_of Ts T = Some t ∧ c = Storage t (Some (existT T x)).

Definition is_empty (c : variant_storage) : Prop :=
  c = Storage (invalid_index bits) None.

(** The class invariant: the cell is empty, or its tag is the tag of the
    type of the payload that is alive in it. *)
Definition wf_cell (Ts : list ty) (c : variant_storage) : Prop :=
  is_empty c ∨ ∃ T x, holds Ts T x c.

(** A computation that writes to no cell but the one at [this]. *)
Definition writes_only {A} (this : loc) (m : M A) : Prop :=
  ∀ σ l, l ≠ this → heap (m σ).2 !! l = heap σ !! l.

(** A computation that leaves the cell at [l] as it is, however it ends. *)
Definition leaves {A} (l : loc) (m : M A) : Prop :=
  ∀ σ, heap (m σ).2 !! l = heap σ !! l.

(** A cell whose tag names an alternative while no payload is alive in
    it: what a destructor call or a constructor that threw leaves. *)
Definition dead (Ts : list ty) (c : variant_storage) : Prop :=
  ∃ T t, tag_of Ts T = Some t ∧ c = Storage t None.
End tag_of.

(** ** A sample instantiation: [variant<Int, Flag, Fragile>]

    [Int] is an integer, [Flag] a boolean, and [Fragile] a boolean whose
    copy constructor throws when it holds [true]. *)
Module Sample.
Inductive ty := Int | Flag | Fragile.

Global Instance ty_eq : EqDecision ty.
Proof. solve_decision. Defined.

Global Instance payload : Payload ty := {|
  val T := match T with Int => Z | Flag => bool | Fragile => bool end;
  copy_throws T :=
    match T with
    | Fragile => λ b, b
    | Int => λ _, false
    | Flag => λ _, false
    end;
  move_throws T := λ _, false;
  moved_from T :=
    match T with
    | Int => λ _, 0
    | Flag => λ _, false
    | Fragile => λ _, false
    end;
|}.

(** [variant<Types...>] is [variant_storage<unsigned char, Types...>]. *)
Definition bits : Z := 8.
Definition Ts : list ty := [Int; Flag; Fragile].

Definition on_int : val Int → Z := λ z, z + 1.
Definition on_flag : val Flag → Z := λ b : bool, if b then 10 else 20.
Definition on_fragile : val Fragile → Z := λ _, 30.
Definition vis : variant_visitor Z Ts :=
  visitor_cons Int on_int
    (visitor_cons Flag on_flag (visitor_cons Fragile on_fragile visitor_nil)).

Definition five : val Int := 5.
Definition yes : val Flag := true.
Definition bomb : val Fragile := true.

(** Two cells; their storage has not been constructed yet and holds
    whatever was there before. *)
Definition p : loc := 1%nat.
Definition q : loc := 2%nat.
Definition fresh (stale : Z) : state :=
  State {[ p := Storage stale None; q := Storage stale None ]} [].

(** A cell that holds the integer 5, with the tag of [Int], at [p]. *)
Definition int_cell : variant_storage := Storage 2 (Some (existT Int five)).
Definition int_at_p : state :=
  State {[ p := int_cell; q := Storage 7 None ]} [].

(** The cell at [p] is empty; the storage at [q] is not constructed. *)
Definition empty_at_p (stale : Z) : state :=
  State {[ p := Storage 255 None; q := Storage stale None ]} [].

(** The cell at [p] after its destructor ran: the tag of [Int], no
    payload. *)
Definition dead_at_p : state :=
  State {[ p := Storage 2 None; q := Storage 7 None ]} [].

(** [variant<Int, Flag>], in which [Fragile] is not declared, and
    [variant<Int, Flag, Int>], in which [Int] is declared twice. *)
Definition Ts_short : list ty := [Int; Flag].
Definition Ts_twice : list ty := [Int; Flag; Int].
Definition on_int_again : val Int → Z := λ z, z - 1.
(** A visitor of another kind, whose every call throws. *)
Definition thrower : ∀ T : ty, val T → M Z := λ _ _, throw.

Definition vis_twice : variant_visitor Z Ts_twice :=
  visitor_cons Int on_int
    (visitor_cons Flag on_flag (visitor_cons Int on_int_again visitor_nil)).
End Sample.

(** * Properties *)

(** ** Tags *)
Section tag_facts.
Context `{Payload ty}.
Variable bits : Z.

Lemma static_assert_true (Tail : list ty) :
  static_assert bits Tail = true →
  index bits Tail = Z.of_nat (length Tail) ∧
  index bits Tail < invalid_index bits.
Proof.
  unfold static_assert. intros [H1 H2]%andb_prop.
  apply Z.eqb_eq in H1. apply Z.ltb_lt in H2. done.
Qed.

Lemma instantiates_cons (Head : ty) (Tail : list ty) :
  instantiates bits (Head :: Tail) = true →
  index bits Tail = Z.of_nat (length Tail) ∧
  index bits Tail < invalid_index bits ∧
  instantiates bits Tail = true.
Proof.
  cbn [instantiates]. intros [H1 H2]%andb_prop.
  apply static_assert_true in H1. tauto.
Qed.

Lemma tag_of_bound Ts T t :
  instantiates bits Ts = true → tag_of bits Ts T = Some t →
  0 ≤ t < Z.of_nat (length Ts) ∧ t < invalid_index bits.
Proof.
  induction Ts as [|Head Tail IH]; cbn [tag_of]; [done|].
  intros (Hi & Hlt & Hinst)%instantiates_cons Ht.
  rewrite length_cons, Nat2Z.inj_succ.
  destruct (decide (T = Head)).
  - injection Ht as <-. lia.
  - destruct (IH Hinst Ht). lia.
Qed.

Lemma tag_of_is_Some Ts T : T ∈ Ts ↔ is_Some (tag_of bits Ts T).
Proof.
  induction Ts as [|Head Tail IH]; cbn [tag_of].
  - split; [intros ?%elem_of_nil | intros [? ?]]; done.
  - rewrite elem_of_cons. destruct (decide (T = Head)) as [->|Hne].
    + split; [by eexists | by left].
    + rewrite <- IH. tauto.
Qed.

(** The tag of a type is the distance of its first occurrence from the
    end of the list. *)
Lemma tag_of_position Ts T t :
  instantiates bits Ts = true → tag_of bits Ts T = Some t →
  ∃ i : nat, Ts !! i = Some T ∧
             (∀ j : nat, (j < i)%nat → Ts !! j ≠ Some T) ∧
             t = Z.of_nat (length Ts) - 1 - Z.of_nat i.
Proof.
  induction Ts as [|Head Tail IH]; cbn [tag_of]; [done|].
  intros (Hi & Hlt & Hinst)%instantiates_cons Ht.
  rewrite length_cons, Nat2Z.inj_succ.
  destruct (decide (T = Head)) as [->|Hne].
  - injection Ht as <-. exists 0%nat. split; [done|].
    split; [intros j Hj; lia | lia].
  - destruct (IH Hinst Ht) as (i & Hl & Hfirst & ->).
    exists (S i). split; [done|]. split; [|lia].
    intros [|j] Hj; cbn; [congruence|]. apply Hfirst. lia.
Qed.

Lemma index_ne_invalid (Head : ty) (Tail : list ty) :
  instantiates bits (Head :: Tail) = true →
  (invalid_index bits =? index bits Tail) = false.
Proof. intros (? & ? & ?)%instantiates_cons. apply Z.eqb_neq. lia. Qed.

Lemma tag_of_ne_index (Head : ty) (Tail : list ty) T t :
  instantiates bits (Head :: Tail) = true → tag_of bits Tail T = Some t →
  (t =? index bits Tail) = false.
Proof.
  intros (? & ? & Hinst)%instantiates_cons Ht.
  destruct (tag_of_bound _ _ _ Hinst Ht). apply Z.eqb_neq. lia.
Qed.
End tag_facts.

(** ** Running the member functions *)

(** One step of a run: unfold the monad, look cells up in the heap. *)
Ltac run_step :=
  first
    [ progress unfold mbind, M_bind, bind, mret, M_ret, ret, throw, undefined,
        ill_formed, assert_, emit, load, store
    | progress cbn [heap log tag payload projT1 projT2 fst snd]
    | rewrite lookup_insert_eq
    | rewrite lookup_insert_ne by done
    | rewrite insert_insert_eq
    | rewrite Z.eqb_refl
    | match goal with
      | Hl : heap ?σ !! ?l = Some _ |- context [heap ?σ !! ?l] => rewrite Hl
      | Hl : ?h !! ?l = Some _ |- context [?h !! ?l] => rewrite Hl
      | Hb : ?b = true |- context [if ?b then _ else _] => rewrite Hb
      | Hb : ?b = false |- context [if ?b then _ else _] => rewrite Hb
      | |- context [decide (?x = ?x)] =>
          rewrite (decide_True (P := x = x)) by reflexivity
      | Hne : ?x ≠ ?y |- context [decide (?x = ?y)] =>
          rewrite (decide_False (P := x = y)) by exact Hne
      end ].
Ltac run := repeat run_step.

Section runs.
Context `{Payload ty}.
Variable bits : Z.
Implicit Types (Ts : list ty) (σ : state) (this rhs : loc).
Implicit Types (c : variant_storage).

Lemma app_log (lg : list event) (e1 e2 : event) :
  (lg ++ [e1]) ++ [e2] = lg ++ [e1; e2].
Proof. by rewrite <- app_assoc. Qed.

Lemma head_value_run T x t this σ :
  heap σ !! this = Some (Storage t (Some (existT T x))) →
  head_value T this σ = (Ret (existT T x), σ).
Proof. intros Hl. unfold head_value. by run. Qed.

(** *** Value construction *)
Lemma value_construct_run Ts T (v : val T) t this c σ :
  tag_of bits Ts T = Some t → heap σ !! this = Some c →
  copy_throws T v = false →
  value_construct bits Ts this T v σ =
    (Ret tt, State (<[this := Storage t (Some (existT T v))]> (heap σ))
                   (log σ ++ [CopyCtor (InCell this) (existT T v)])).
Proof.
  intros Ht Hl Hc. induction Ts as [|Head Tail IH]; [done|].
  cbn [tag_of value_construct] in *.
  destruct (decide (T = Head)) as [->|Hne]; [|by apply IH].
  injection Ht as <-. unfold copy_value, set_payload. by run.
Qed.

Lemma value_construct_throw Ts T (v : val T) t this c σ :
  tag_of bits Ts T = Some t → heap σ !! this = Some c →
  copy_throws T v = true →
  value_construct bits Ts this T v σ =
    (Throw, State (<[this := Storage t None]> (heap σ))
                  (log σ ++ [CopyCtor (InCell this) (existT T v)])).
Proof.
  intros Ht Hl Hc. induction Ts as [|Head Tail IH]; [done|].
  cbn [tag_of value_construct] in *.
  destruct (decide (T = Head)) as [->|Hne]; [|by apply IH].
  injection Ht as <-. unfold copy_value, set_payload. by run.
Qed.

(** *** Dispatch *)
Lemma dispatch_run {R} Ts T (x : val T) t this σ (v : ∀ U, val U → M R) :
  instantiates bits Ts = true → tag_of bits Ts T = Some t →
  heap σ !! this = Some (Storage t (Some (existT T x))) →
  dispatch bits Ts this v σ = v T x σ.
Proof.
  intros Hinst Ht Hl. induction Ts as [|Head Tail IH]; [done|].
  cbn [tag_of dispatch] in *.
  destruct (decide (T = Head)) as [->|Hne].
  - injection Ht as <-. unfold head_value. by run.
  - rewrite <- IH; [|by apply (instantiates_cons bits Head)|done].
    run. by rewrite (tag_of_ne_index bits Head Tail T t).
Qed.

Lemma dispatch_empty {R} Ts c this σ (v : ∀ U, val U → M R) :
  instantiates bits Ts = true → heap σ !! this = Some c →
  tag c = invalid_index bits →
  dispatch bits Ts this v σ = (Abort "Attempted to visit empty variant", σ).
Proof.
  intros Hinst Hl Hc. induction Ts as [|Head Tail IH]; [done|].
  cbn [dispatch]. run. rewrite Hc, (index_ne_invalid bits Head Tail) by done.
  apply IH. by apply (instantiates_cons bits Head).
Qed.

(** *** Destruction *)
Lemma destroy_run Ts T (x : val T) t this σ :
  instantiates bits Ts = true → tag_of bits Ts T = Some t →
  heap σ !! this = Some (Storage t (Some (existT T x))) →
  destroy bits Ts this σ =
    (Ret tt, State (<[this := Storage t None]> (heap σ))
                   (log σ ++ [Dtor (InCell this) (existT T x)])).
Proof.
  intros Hinst Ht Hl. induction Ts as [|Head Tail IH]; [done|].
  cbn [tag_of destroy] in *.
  destruct (decide (T = Head)) as [->|Hne].
  - injection Ht as <-. unfold head_value, set_payload. by run.
  - rewrite <- IH; [|by apply (instantiates_cons bits Head)|done].
    run. by rewrite (tag_of_ne_index bits Head Tail T t).
Qed.

Lemma destroy_empty Ts c this σ :
  instantiates bits Ts = true → heap σ !! this = Some c →
  tag c = invalid_index bits →
  destroy bits Ts this σ = (Ret tt, σ).
Proof.
  intros Hinst Hl Hc. induction Ts as [|Head Tail IH]; [done|].
  cbn [destroy]. run. rewrite Hc, (index_ne_invalid bits Head Tail) by done.
  apply IH. by apply (instantiates_cons bits Head).
Qed.
(** *** Copy and move construction *)
Lemma copy_members_run Ts T (x : val T) t this rhs c σ :
  instantiates bits Ts = true → tag_of bits Ts T = Some t → this ≠ rhs →
  heap σ !! rhs = Some (Storage t (Some (existT T x))) →
  heap σ !! this = Some c → copy_throws T x = false →
  copy_members bits Ts this rhs σ =
    (Ret true, State (<[this := Storage t (Some (existT T x))]> (heap σ))
                     (log σ ++ [CopyCtor (InCell this) (existT T x)])).
Proof.
  intros Hinst Ht Hne Hr Hl Hc. induction Ts as [|Head Tail IH]; [done|].
  cbn [tag_of copy_members] in *. unfold head_tag.
  destruct (decide (T = Head)) as [->|HT].
  - injection Ht as <-. unfold head_value, copy_value, set_payload. by run.
  - run. rewrite (tag_of_ne_index bits Head Tail T t) by done.
    rewrite IH; [|by apply (instantiates_cons bits Head)|done]. by run.
Qed.

Lemma copy_construct_run Ts T (x : val T) t this rhs c σ :
  instantiates bits Ts = true → tag_of bits Ts T = Some t → this ≠ rhs →
  heap σ !! rhs = Some (Storage t (Some (existT T x))) →
  heap σ !! this = Some c → copy_throws T x = false →
  copy_construct bits Ts this rhs σ =
    (Ret tt, State (<[this := Storage t (Some (existT T x))]> (heap σ))
                   (log σ ++ [CopyCtor (InCell this) (existT T x)])).
Proof.
  intros Hinst Ht Hne Hr Hl Hc. unfold copy_construct, mbind, M_bind, bind.
  by rewrite (copy_members_run Ts T x t this rhs c σ).
Qed.

Lemma move_members_run Ts T (x : val T) t this rhs c σ :
  instantiates bits Ts = true → tag_of bits Ts T = Some t → this ≠ rhs →
  heap σ !! rhs = Some (Storage t (Some (existT T x))) →
  heap σ !! this = Some c → move_throws T x = false →
  move_members bits Ts this rhs σ =
    (Ret true,
     State (<[rhs := Storage t (Some (existT T (moved_from T x)))]>
              (<[this := Storage t (Some (existT T x))]> (heap σ)))
           (log σ ++ [MoveCtor (InCell this) (existT T x)])).
Proof.
  intros Hinst Ht Hne Hr Hl Hc. induction Ts as [|Head Tail IH]; [done|].
  cbn [tag_of move_members] in *. unfold head_tag.
  destruct (decide (T = Head)) as [->|HT].
  - injection Ht as <-. unfold head_value, move_value, set_payload. by run.
  - run. rewrite (tag_of_ne_index bits Head Tail T t) by done.
    rewrite IH; [|by apply (instantiates_cons bits Head)|done].
    assert (rhs ≠ this) by done. by run.
Qed.

Lemma move_construct_run Ts T (x : val T) t this rhs c σ :
  instantiates bits Ts = true → tag_of bits Ts T = Some t → this ≠ rhs →
  heap σ !! rhs = Some (Storage t (Some (existT T x))) →
  heap σ !! this = Some c → move_throws T x = false →
  move_construct bits Ts this rhs σ =
    (Ret tt,
     State (<[rhs := Storage t (Some (existT T (moved_from T x)))]>
              (<[this := Storage t (Some (existT T x))]> (heap σ)))
           (log σ ++ [MoveCtor (InCell this) (existT T x)])).
Proof.
  intros Hinst Ht Hne Hr Hl Hc. unfold move_construct, mbind, M_bind, bind.
  by rewrite (move_members_run Ts T x t this rhs c σ).
Qed.



(** For a type of the list [operator =] is its two steps. *)
Lemma assign_declared Ts this T (v : val T) :
  T ∈ Ts →
  assign bits Ts this T v =
    (destroy bits Ts this ;; value_construct bits Ts this T v ;; ret this).
Proof. intros Hin. unfold assign. by rewrite decide_True. Qed.
End runs.

(** ** Visitors *)
Section visitor_facts.
Context `{Payload ty}.
Variable bits : Z.

(** The overload chosen for a [T] is the handler at the position of the
    first [T] of the list, the level whose tag a [T] is stored with. *)
Lemma overload_tag_of {R} Ts (vis : variant_visitor R Ts) k T t :
  instantiates bits Ts = true → tag_of bits Ts T = Some t →
  ∃ (i : nat) (f : val T → R),
    overload vis k T = Some ((k + i)%nat, f) ∧
    handler_at vis i = Some (existT T f) ∧
    Ts !! i = Some T ∧
    t = Z.of_nat (length Ts) - 1 - Z.of_nat i.
Proof.
  intros Hinst Ht. revert k. induction vis as [|Head Tail f base IH]; [done|].
  intros k. cbn [tag_of overload handler_at] in *.
  destruct (instantiates_cons bits _ _ Hinst) as (Hi & _ & Hinst').
  rewrite length_cons, Nat2Z.inj_succ.
  destruct (decide (T = Head)) as [->|Hne].
  - injection Ht as <-. exists 0%nat, f.
    rewrite (decide_True_pi (eq_refl Head)), Nat.add_0_r. cbn.
    repeat split; lia.
  - destruct (decide (Head = T)) as [e|_]; [congruence|].
    destruct (IH Hinst' Ht (S k)) as (i & g & Ho & Hh & Hl & ->).
    exists (S i), g. rewrite Ho, Nat.add_succ_r. repeat split; try done. lia.
Qed.

Lemma call_head_fun_run {R} i T (f : val T → R) (x : val T) σ :
  copy_throws T x = false →
  call_head_fun i T f x σ =
    (Ret (f x),
     State (heap σ)
           (log σ ++ [CopyCtor Argument (existT T x); Invoke i (existT T x);
                      Dtor Argument (existT T x)])).
Proof.
  intros Hc. unfold call_head_fun. run. by rewrite <- !app_assoc.
Qed.
End visitor_facts.

(** ** Tag assignment *)
Section tag_assignment.
Context `{Payload ty}.
Variable bits : Z.
Implicit Types (Ts : list ty) (σ : state) (this rhs : loc).
Implicit Types (c : variant_storage).

Lemma indices_bound Ts t :
  instantiates bits Ts = true → t ∈ indices bits Ts →
  0 ≤ t < Z.of_nat (length Ts) ∧ t < invalid_index bits.
Proof.
  induction Ts as [|Head Tail IH]; cbn [indices].
  - by intros _ ?%elem_of_nil.
  - intros (Hi & Hlt & Hinst)%instantiates_cons [->|Hin]%elem_of_cons;
      rewrite length_cons, Nat2Z.inj_succ; [lia|].
    destruct (IH Hinst Hin). lia.
Qed.

Lemma indices_lookup Ts (i : nat) :
  instantiates bits Ts = true → (i < length Ts)%nat →
  indices bits Ts !! i = Some (Z.of_nat (length Ts) - 1 - Z.of_nat i).
Proof.
  revert i. induction Ts as [|Head Tail IH]; cbn [indices length]; [lia|].
  intros i (Hi & _ & Hinst)%instantiates_cons Hlt. destruct i as [|i]; cbn.
  - f_equal. lia.
  - rewrite IH by (done || lia). f_equal. lia.
Qed.

Lemma indices_length Ts : length (indices bits Ts) = length Ts.
Proof. induction Ts; cbn; congruence. Qed.

Lemma indices_NoDup Ts :
  instantiates bits Ts = true → NoDup (indices bits Ts).
Proof.
  induction Ts as [|Head Tail IH]; cbn [indices]; [constructor|].
  intros Hinst.
  destruct (instantiates_cons bits _ _ Hinst) as (Hi & _ & Hinst').
  apply NoDup_cons. split; [|by apply IH].
  intros Hin%indices_bound; [lia|done].
Qed.

(** C3: for a list of distinct types that the union accepts, the tags
    are, in the order of the list, N-1 down to 0: the tag of a type is its
    distance from the end of the list and is the tag its value
    constructor stores, the last type has tag 0, the tags are pairwise
    distinct and none is [invalid_index]. *)
Theorem tags_distinct_contiguous Ts tags :
  NoDup Ts → assigned_tags bits Ts = Some tags →
  length tags = length Ts ∧
  (∀ (i : nat) T, Ts !! i = Some T →
     tags !! i = Some (Z.of_nat (length Ts) - 1 - Z.of_nat i) ∧
     tag_of bits Ts T = tags !! i) ∧
  (∀ t, t ∈ tags ↔ 0 ≤ t < Z.of_nat (length Ts)) ∧
  last tags = (if bool_decide (Ts = []) then None else Some 0) ∧
  NoDup tags ∧
  invalid_index bits ∉ tags.
Proof.
  unfold assigned_tags. intros Hnd Has.
  destruct (instantiates bits Ts) eqn:Hinst; [|done]. injection Has as <-.
  assert (Hlook : ∀ (i : nat) T, Ts !! i = Some T →
    indices bits Ts !! i = Some (Z.of_nat (length Ts) - 1 - Z.of_nat i)).
  { intros i T Hi. apply indices_lookup; [done|]. by eapply lookup_lt_Some. }
  split; [apply indices_length|]. split; [|split; [|split; [|split]]].
  - intros i T Hi. split; [by eapply Hlook|]. rewrite (Hlook i T Hi).
    destruct (proj1 (tag_of_is_Some bits Ts T)) as [t Ht].
    { by eapply list_elem_of_lookup_2. }
    destruct (tag_of_position bits _ _ _ Hinst Ht) as (j & Hj & _ & ->).
    by rewrite (NoDup_lookup _ _ _ _ Hnd Hi Hj).
  - intros t. split.
    + intros Hin. by destruct (indices_bound _ _ Hinst Hin).
    + intros Ht. apply list_elem_of_lookup.
      exists (Z.to_nat (Z.of_nat (length Ts) - 1 - t)).
      rewrite indices_lookup by (done || lia). f_equal. lia.
  - rewrite last_lookup, indices_length.
    destruct Ts as [|Head Tail]; [done|].
    rewrite indices_lookup by (done || cbn; lia).
    rewrite bool_decide_false by done. f_equal. cbn [length]. lia.
  - by apply indices_NoDup.
  - intros Hin%indices_bound; [lia|done].
Qed.
End tag_assignment.

(** [unsigned char] has room for 255 alternatives and the sentinel. *)
Example unsigned_char_255_alternatives :
  instantiates 8 (replicate 255 Sample.Int) = true ∧
  instantiates 8 (replicate 256 Sample.Int) = false ∧
  assigned_tags 8 (replicate 256 Sample.Int) = None ∧
  invalid_index 8 = 255.
Proof. by vm_compute. Qed.

(** ** Construction and dispatch *)
Section dispatching.
Context `{Payload ty}.
Variable bits : Z.
Implicit Types (Ts : list ty) (σ : state) (this rhs : loc).
Implicit Types (c : variant_storage).

(** C1: a cell constructed from a value [v] of a declared type [T] and
    then visited runs, of all the handlers, only the handler at the
    position of [T], once, on [v], and returns what that handler returns;
    a visitor of any other kind is called once, on [T] and [v]. *)
Theorem construct_then_dispatch {R} Ts (vis : variant_visitor R Ts)
    T (v : val T) this c σ :
  instantiates bits Ts = true → T ∈ Ts →
  heap σ !! this = Some c → copy_throws T v = false →
  ∃ (i : nat) (f : val T → R),
    Ts !! i = Some T ∧
    handler_at vis i = Some (existT T f) ∧
    (value_construct bits Ts this T v ;; visit bits Ts this vis) σ =
      (Ret (f v),
       State (<[this := Storage (Z.of_nat (length Ts) - 1 - Z.of_nat i)
                                (Some (existT T v))]> (heap σ))
             (log σ ++ [CopyCtor (InCell this) (existT T v);
                        CopyCtor Argument (existT T v);
                        Invoke i (existT T v);
                        Dtor Argument (existT T v)])) ∧
    ∀ g : ∀ U, val U → M R,
      (value_construct bits Ts this T v ;; call bits Ts this g) σ =
      (value_construct bits Ts this T v ;; g T v) σ.
Proof.
  intros Hinst [t Ht]%(tag_of_is_Some bits) Hl Hc.
  destruct (overload_tag_of bits Ts vis 0 T t Hinst Ht)
    as (i & f & Ho & Hh & Hi & ->).
  exists i, f. split; [done|]. split; [done|].
  assert (Hcons := value_construct_run bits Ts T v _ this c σ Ht Hl Hc).
  destruct Ts as [|Head Tail]; [done|].
  split.
  - unfold visit. run. rewrite Hcons.
    erewrite dispatch_run; [|done|done|cbn; apply lookup_insert_eq].
    unfold visitor_call. rewrite Ho. cbn [Nat.add].
    rewrite call_head_fun_run by done. cbn [heap log].
    by rewrite <- app_assoc.
  - intros g. unfold call. run. rewrite Hcons.
    erewrite dispatch_run; [done|done|done|cbn; apply lookup_insert_eq].
Qed.

(** C2: [dispatch] on an empty cell compares the sentinel with the
    [index] of every level, reaches the empty union and fails its
    assertion; the visitor is not called and nothing is returned. *)
Theorem dispatch_empty_asserts {R} Ts this c σ (g : ∀ U, val U → M R) :
  instantiates bits Ts = true →
  heap σ !! this = Some c → tag c = invalid_index bits →
  empty bits this σ = (Ret true, σ) ∧
  dispatch bits Ts this g σ =
    (Abort "Attempted to visit empty variant", σ) ∧
  call bits Ts this g σ =
    (if bool_decide (Ts = []) then IllFormed
     else Abort "Attempted to visit empty variant", σ).
Proof.
  intros Hinst Hl Hc. split; [|split].
  - unfold empty. run. by rewrite Hc, Z.eqb_refl.
  - by eapply dispatch_empty.
  - destruct Ts; [done|]. rewrite bool_decide_false by done.
    by eapply dispatch_empty.
Qed.
End dispatching.

(** ** The member functions of a cell write to that cell only *)
Section frame.
Context `{Payload ty}.
Variable bits : Z.
Implicit Types (Ts : list ty) (σ : state) (this rhs : loc).
Implicit Types (c : variant_storage).

Lemma writes_only_bind {A B} this (m : M A) (f : A → M B) :
  writes_only this m → (∀ a, writes_only this (f a)) →
  writes_only this (m ≫= f).
Proof.
  intros Hm Hf σ l Hl. unfold mbind, M_bind, bind.
  specialize (Hm σ l Hl). destruct (m σ) as [[a| | | |] σ']; cbn in *;
    [|done..]. rewrite <- Hm. by apply Hf.
Qed.

Lemma writes_only_pure {A} this (o : outcome A) :
  writes_only this (λ σ, (o, σ)).
Proof. by intros σ l Hl. Qed.

Lemma writes_only_emit this e : writes_only this (emit e).
Proof. by intros σ l Hl. Qed.

Lemma writes_only_assert this b msg : writes_only this (assert_ b msg).
Proof. intros σ l Hl. unfold assert_. by destruct b. Qed.

Lemma writes_only_load this l' : writes_only this (load l').
Proof. intros σ l Hl. unfold load. by destruct (heap σ !! l'). Qed.

Lemma writes_only_store this c : writes_only this (store this c).
Proof.
  intros σ l Hl. unfold store. destruct (heap σ !! this); [|done].
  cbn. by rewrite lookup_insert_ne.
Qed.

Lemma writes_only_if {A} this (b : bool) (m1 m2 : M A) :
  writes_only this m1 → writes_only this m2 →
  writes_only this (if b then m1 else m2).
Proof. by destruct b. Qed.

Lemma writes_only_decide {A} this P `{Decision P} (m1 m2 : M A) :
  writes_only this m1 → writes_only this m2 →
  writes_only this (if decide P then m1 else m2).
Proof. by destruct (decide P). Qed.
End frame.

Create HintDb frame discriminated.
#[export] Hint Resolve writes_only_pure writes_only_emit writes_only_assert
  writes_only_load writes_only_store : frame.

Ltac frame :=
  repeat first
    [ apply writes_only_bind; [|intros ?]
    | apply writes_only_if
    | apply writes_only_decide
    | solve [eauto with frame]
    | match goal with
      | |- writes_only _ (match ?x with _ => _ end) => destruct x
      end ].

Section frame_members.
Context `{Payload ty}.
Variable bits : Z.
Implicit Types (Ts : list ty) (σ : state) (this rhs : loc).
Implicit Types (c : variant_storage).

Lemma writes_only_head_value this Head l : writes_only this (head_value Head l).
Proof. unfold head_value. frame; eauto using writes_only_pure. Qed.

Lemma writes_only_set_payload this o : writes_only this (set_payload this o).
Proof. unfold set_payload. frame. Qed.

Lemma writes_only_set_tag this t : writes_only this (set_tag this t).
Proof. unfold set_tag. frame. Qed.

Lemma writes_only_copy_value this o : writes_only this (copy_value this o).
Proof.
  unfold copy_value. frame;
    eauto using writes_only_pure, writes_only_set_payload.
Qed.

Lemma writes_only_value_construct Ts this T (v : val T) :
  writes_only this (value_construct bits Ts this T v).
Proof.
  induction Ts as [|Head Tail IH]; cbn [value_construct];
    frame; eauto using writes_only_pure, writes_only_copy_value.
Qed.

Lemma writes_only_destroy Ts this : writes_only this (destroy bits Ts this).
Proof.
  induction Ts as [|Head Tail IH]; cbn [destroy];
    frame; eauto using writes_only_pure, writes_only_head_value,
                       writes_only_set_payload.
Qed.

Lemma writes_only_assign Ts this T (v : val T) :
  writes_only this (assign bits Ts this T v).
Proof.
  unfold assign. frame;
    eauto using writes_only_pure, writes_only_destroy,
                writes_only_value_construct.
Qed.

Lemma writes_only_clear Ts this : writes_only this (clear bits Ts this).
Proof.
  unfold clear. frame; eauto using writes_only_destroy, writes_only_set_tag.
Qed.
End frame_members.

(** ** Lifecycle of a cell *)
Section lifecycle.
Context `{Payload ty}.
Variable bits : Z.
Implicit Types (Ts : list ty) (σ : state) (this rhs : loc).
Implicit Types (c r : variant_storage).

Lemma clear_run Ts T (x : val T) t this σ :
  instantiates bits Ts = true → tag_of bits Ts T = Some t →
  heap σ !! this = Some (Storage t (Some (existT T x))) →
  clear bits Ts this σ =
    (Ret tt, State (<[this := Storage (invalid_index bits) None]> (heap σ))
                   (log σ ++ [Dtor (InCell this) (existT T x)])).
Proof.
  intros Hinst Ht Hl. unfold clear, set_tag. run.
  rewrite (destroy_run bits Ts T x t) by done. by run.
Qed.

Lemma clear_empty Ts this σ :
  instantiates bits Ts = true →
  heap σ !! this = Some (Storage (invalid_index bits) None) →
  clear bits Ts this σ = (Ret tt, σ).
Proof.
  intros Hinst Hl. unfold clear, set_tag. run.
  rewrite (destroy_empty bits Ts _ this σ Hinst Hl) by done. run.
  rewrite insert_id by done. by destruct σ.
Qed.

(** C4: assigning [b1] to a cell that holds [a1] runs the destructor of
    [a1], then the copy constructor of [b1], and nothing else; the cell
    then has the tag of [B] and a visit runs the handler of [B] on [b1]
    and no other.  When the copy constructor throws, [a1] is already
    destroyed and stays so: the cell is left with the tag of [B] and no
    payload. *)
Theorem assign_replaces {R} Ts (vis : variant_visitor R Ts)
    A (a1 : val A) B (b1 : val B) this c σ :
  instantiates bits Ts = true → B ∈ Ts →
  heap σ !! this = Some c → holds bits Ts A a1 c →
  ∃ (tB : Z) (i : nat) (f : val B → R),
    tag_of bits Ts B = Some tB ∧
    Ts !! i = Some B ∧
    handler_at vis i = Some (existT B f) ∧
    assign bits Ts this B b1 σ =
      (if copy_throws B b1 then
         (Throw,
          State (<[this := Storage tB None]> (heap σ))
                (log σ ++ [Dtor (InCell this) (existT A a1);
                           CopyCtor (InCell this) (existT B b1)]))
       else
         (Ret this,
          State (<[this := Storage tB (Some (existT B b1))]> (heap σ))
                (log σ ++ [Dtor (InCell this) (existT A a1);
                           CopyCtor (InCell this) (existT B b1)]))) ∧
    (assign bits Ts this B b1 ;; visit bits Ts this vis) σ =
      (if copy_throws B b1 then
         (Throw,
          State (<[this := Storage tB None]> (heap σ))
                (log σ ++ [Dtor (InCell this) (existT A a1);
                           CopyCtor (InCell this) (existT B b1)]))
       else
         (Ret (f b1),
          State (<[this := Storage tB (Some (existT B b1))]> (heap σ))
                (log σ ++ [Dtor (InCell this) (existT A a1);
                           CopyCtor (InCell this) (existT B b1);
                           CopyCtor Argument (existT B b1);
                           Invoke i (existT B b1);
                           Dtor Argument (existT B b1)]))).
Proof.
  intros Hinst [tB HtB]%(tag_of_is_Some bits) Hl (tA & HtA & ->).
  destruct (overload_tag_of bits Ts vis 0 B tB Hinst HtB)
    as (i & f & Ho & Hh & Hi & HtBi).
  exists tB, i, f. split; [done|]. split; [done|]. split; [done|].
  assert (Hd := destroy_run bits Ts A a1 tA this σ Hinst HtA Hl).
  destruct (copy_throws B b1) eqn:Hc.
  - assert (Has : assign bits Ts this B b1 σ =
       (Throw,
        State (<[this := Storage tB None]> (heap σ))
              (log σ ++ [Dtor (InCell this) (existT A a1);
                         CopyCtor (InCell this) (existT B b1)]))).
    { rewrite assign_declared by (apply (tag_of_is_Some bits); by eexists).
      run. rewrite Hd.
      erewrite (value_construct_throw bits _ B b1 tB);
        [|done|cbn; apply lookup_insert_eq|done].
      run. by rewrite <- app_assoc. }
    split; [done|]. unfold mbind, M_bind, bind. by rewrite Has.
  - assert (Has : assign bits Ts this B b1 σ =
       (Ret this,
        State (<[this := Storage tB (Some (existT B b1))]> (heap σ))
              (log σ ++ [Dtor (InCell this) (existT A a1);
                         CopyCtor (InCell this) (existT B b1)]))).
    { rewrite assign_declared by (apply (tag_of_is_Some bits); by eexists).
      run. rewrite Hd.
      erewrite (value_construct_run bits _ B b1 tB);
        [|done|cbn; apply lookup_insert_eq|done].
      run. by rewrite <- app_assoc. }
    split; [done|]. unfold mbind, M_bind, bind. rewrite Has.
    destruct Ts as [|Head Tail]; [done|]. unfold visit.
    rewrite (dispatch_run bits _ B b1 tB);
      [|done|done|cbn; apply lookup_insert_eq].
    unfold visitor_call. rewrite Ho. cbn [Nat.add].
    rewrite call_head_fun_run by done. cbn [heap log].
    by rewrite <- app_assoc.
Qed.

(** C5: a default-constructed cell is empty; a cell constructed from a
    value and then cleared is empty, and between the two exactly one
    destructor ran, that of the payload. *)
Theorem empty_after_default_and_clear Ts T (v : val T) this c σ :
  instantiates bits Ts = true → T ∈ Ts →
  heap σ !! this = Some c → copy_throws T v = false →
  (default_construct bits this ;; empty bits this) σ =
    (Ret true,
     State (<[this := Storage (invalid_index bits) None]> (heap σ))
           (log σ)) ∧
  (value_construct bits Ts this T v ;; clear bits Ts this ;;
   empty bits this) σ =
    (Ret true,
     State (<[this := Storage (invalid_index bits) None]> (heap σ))
           (log σ ++ [CopyCtor (InCell this) (existT T v);
                      Dtor (InCell this) (existT T v)])).
Proof.
  intros Hinst [t Ht]%(tag_of_is_Some bits) Hl Hc. split.
  - unfold default_construct, empty. by run.
  - run. rewrite (value_construct_run bits Ts T v t this c σ) by done.
    erewrite clear_run; [|done|done|cbn; apply lookup_insert_eq].
    unfold empty. run. by rewrite <- app_assoc.
Qed.

(** C6: on a cell that is empty or holds a value, [clear] returns and
    leaves the cell empty; a second [clear] changes neither the heap nor
    the log, so it runs no destructor, and two calls in a row amount to
    one. *)
Theorem clear_idempotent Ts this c σ :
  instantiates bits Ts = true →
  heap σ !! this = Some c → wf_cell bits Ts c →
  ∃ σ1,
    clear bits Ts this σ = (Ret tt, σ1) ∧
    heap σ1 !! this = Some (Storage (invalid_index bits) None) ∧
    clear bits Ts this σ1 = (Ret tt, σ1) ∧
    (clear bits Ts this ;; clear bits Ts this) σ = clear bits Ts this σ.
Proof.
  intros Hinst Hl Hwf.
  assert (∃ σ1, clear bits Ts this σ = (Ret tt, σ1) ∧
            heap σ1 !! this = Some (Storage (invalid_index bits) None))
    as (σ1 & Hc1 & Hl1).
  { destruct Hwf as [->|(T & x & t & Ht & ->)].
    - exists σ. split; [by apply clear_empty|done].
    - eexists. split; [by eapply clear_run|]. cbn. apply lookup_insert_eq. }
  exists σ1. assert (Hc2 := clear_empty Ts this σ1 Hinst Hl1).
  repeat split; try done.
  unfold mbind, M_bind, bind. by rewrite Hc1.
Qed.
End lifecycle.

(** ** Copy and move construction *)
Section copy_move.
Context `{Payload ty}.
Variable bits : Z.
Implicit Types (Ts : list ty) (σ : state) (this rhs : loc).
Implicit Types (c r : variant_storage).

(** C7: copy construction from a cell that holds [x] runs the copy
    constructor of [x] in the new cell and nothing else; the new cell has
    the tag and the value of the source, in storage of its own: the
    source is not written, and no write to the new cell, no assignment to
    it, no [clear] and no destruction of it changes the source. *)
Theorem copy_is_independent Ts T (x : val T) this rhs c r σ :
  instantiates bits Ts = true → this ≠ rhs →
  heap σ !! rhs = Some r → holds bits Ts T x r →
  heap σ !! this = Some c → copy_throws T x = false →
  ∃ σ1,
    copy_construct bits Ts this rhs σ = (Ret tt, σ1) ∧
    log σ1 = log σ ++ [CopyCtor (InCell this) (existT T x)] ∧
    heap σ1 !! this = Some r ∧
    heap σ1 !! rhs = Some r ∧
    (∀ c', <[this := c']> (heap σ1) !! rhs = Some r) ∧
    (∀ U (u : val U),
       heap (assign bits Ts this U u σ1).2 !! rhs = Some r) ∧
    heap (clear bits Ts this σ1).2 !! rhs = Some r ∧
    heap (destroy bits Ts this σ1).2 !! rhs = Some r.
Proof.
  intros Hinst Hne Hr (t & Ht & ->) Hl Hc.
  assert (rhs ≠ this) as Hne' by done.
  eexists. split; [by eapply copy_construct_run|]. cbn [heap log].
  assert (<[this := Storage t (Some (existT T x))]> (heap σ) !! rhs =
          Some (Storage t (Some (existT T x)))) as Hr1
    by by rewrite lookup_insert_ne.
  split; [done|]. split; [apply lookup_insert_eq|]. split; [done|].
  split; [|split; [|split]].
  - intros c'. by rewrite insert_insert_eq, lookup_insert_ne.
  - intros U u. by rewrite (writes_only_assign bits Ts this U u _ rhs).
  - by rewrite (writes_only_clear bits Ts this _ rhs).
  - by rewrite (writes_only_destroy bits Ts this _ rhs).
Qed.

(** C8: move construction from a cell that holds [x] gives the new cell
    the tag of the source and the value [x]; the source keeps its tag and
    holds the moved-from value.  Destroying the source then runs one
    destructor, on the moved-from value in the source, and leaves the new
    cell as it is; destroying the new cell later runs the destructor of
    its own payload. *)
Theorem move_leaves_source_destructible Ts T (x : val T) this rhs c r σ :
  instantiates bits Ts = true → this ≠ rhs →
  heap σ !! rhs = Some r → holds bits Ts T x r →
  heap σ !! this = Some c → move_throws T x = false →
  ∃ σ1 σ2 σ3,
    move_construct bits Ts this rhs σ = (Ret tt, σ1) ∧
    log σ1 = log σ ++ [MoveCtor (InCell this) (existT T x)] ∧
    heap σ1 !! this = Some r ∧
    heap σ1 !! rhs =
      Some (Storage (tag r) (Some (existT T (moved_from T x)))) ∧
    destroy bits Ts rhs σ1 = (Ret tt, σ2) ∧
    log σ2 = log σ1 ++ [Dtor (InCell rhs) (existT T (moved_from T x))] ∧
    heap σ2 !! rhs = Some (Storage (tag r) None) ∧
    heap σ2 !! this = Some r ∧
    destroy bits Ts this σ2 = (Ret tt, σ3) ∧
    log σ3 = log σ2 ++ [Dtor (InCell this) (existT T x)].
Proof.
  intros Hinst Hne Hr (t & Ht & ->) Hl Hc.
  assert (rhs ≠ this) as Hne' by done.
  eexists. eexists. eexists.
  split; [by eapply move_construct_run|]. cbn [heap log tag].
  split; [done|]. split; [by rewrite lookup_insert_ne, lookup_insert_eq|].
  split; [apply lookup_insert_eq|].
  split.
  { eapply (destroy_run bits Ts T (moved_from T x) t); [done|done|].
    cbn. apply lookup_insert_eq. }
  cbn [heap log]. split; [done|]. rewrite insert_insert_eq.
  split; [apply lookup_insert_eq|].
  split; [by rewrite lookup_insert_ne, lookup_insert_eq|].
  split.
  { eapply (destroy_run bits Ts T x t); [done|done|].
    cbn. by rewrite lookup_insert_ne, lookup_insert_eq. }
  done.
Qed.

End copy_move.

(** ** The three ways to visit *)
Section entry_points.
Context `{Payload ty}.
Variable bits : Z.
Implicit Types (Ts : list ty) (σ : state) (this rhs : loc).
Implicit Types (c r : variant_storage).

(** C10: for a union with at least one alternative, [s (v)],
    [s.visit (v)] and [s.visit<R> () >>= v] are the same call of
    [dispatch]; on a cell that holds [x] each of them returns what the
    handler of the type of [x] returns on [x]. *)
Theorem entry_points_agree {R} Ts (vis : variant_visitor R Ts)
    T (x : val T) this c σ :
  instantiates bits Ts = true →
  heap σ !! this = Some c → holds bits Ts T x c →
  copy_throws T x = false →
  call bits Ts this (@visitor_call _ _ R Ts vis) σ =
    visit bits Ts this vis σ ∧
  (a ← visit_accept Ts this; accept_bind bits Ts a vis) σ =
    visit bits Ts this vis σ ∧
  visit bits Ts this vis σ =
    dispatch bits Ts this (@visitor_call _ _ R Ts vis) σ ∧
  ∃ (i : nat) (f : val T → R),
    handler_at vis i = Some (existT T f) ∧
    visit bits Ts this vis σ =
      (Ret (f x),
       State (heap σ)
             (log σ ++ [CopyCtor Argument (existT T x);
                        Invoke i (existT T x);
                        Dtor Argument (existT T x)])).
Proof.
  intros Hinst Hl (t & Ht & ->) Hc.
  destruct Ts as [|Head Tail]; [done|].
  split; [done|]. split; [done|]. split; [done|].
  destruct (overload_tag_of bits _ vis 0 T t Hinst Ht)
    as (i & f & Ho & Hh & _ & _).
  exists i, f. split; [done|]. unfold visit.
  rewrite (dispatch_run bits _ T x t) by done.
  unfold visitor_call. rewrite Ho. by apply call_head_fun_run.
Qed.
End entry_points.

(** ** The theorems on [variant<Int, Flag, Fragile>] *)
Section sample_runs.
Import Sample.

Lemma tags_distinct_contiguous_witness :
  length [2; 1; 0] = length Ts ∧
  (∀ (i : nat) T, Ts !! i = Some T →
     [2; 1; 0] !! i = Some (Z.of_nat (length Ts) - 1 - Z.of_nat i) ∧
     tag_of bits Ts T = [2; 1; 0] !! i) ∧
  (∀ t, t ∈ [2; 1; 0] ↔ 0 ≤ t < Z.of_nat (length Ts)) ∧
  last [2; 1; 0] = (if bool_decide (Ts = []) then None else Some 0) ∧
  NoDup [2; 1; 0] ∧
  invalid_index bits ∉ [2; 1; 0].
Proof.
  apply (tags_distinct_contiguous bits Ts [2; 1; 0]);
    [compute_done | reflexivity].
Defined.

Lemma construct_then_dispatch_witness :
  ∃ (i : nat) (f : val Flag → Z),
    Ts !! i = Some Flag ∧
    handler_at vis i = Some (existT Flag f) ∧
    (value_construct bits Ts p Flag yes ;; visit bits Ts p vis) (fresh 7) =
      (Ret (f yes),
       State (<[p := Storage (Z.of_nat (length Ts) - 1 - Z.of_nat i)
                             (Some (existT Flag yes))]> (heap (fresh 7)))
             (log (fresh 7) ++ [CopyCtor (InCell p) (existT Flag yes);
                                CopyCtor Argument (existT Flag yes);
                                Invoke i (existT Flag yes);
                                Dtor Argument (existT Flag yes)])) ∧
    ∀ g : ∀ U, val U → M Z,
      (value_construct bits Ts p Flag yes ;; call bits Ts p g) (fresh 7) =
      (value_construct bits Ts p Flag yes ;; g Flag yes) (fresh 7).
Proof.
  apply (construct_then_dispatch bits Ts vis Flag yes p (Storage 7 None)
           (fresh 7)); [reflexivity | compute_done | reflexivity | reflexivity].
Defined.

Lemma dispatch_empty_asserts_witness :
  empty bits p (fresh 255) = (Ret true, fresh 255) ∧
  dispatch bits Ts p (@visitor_call _ _ Z Ts vis) (fresh 255) =
    (Abort "Attempted to visit empty variant", fresh 255) ∧
  call bits Ts p (@visitor_call _ _ Z Ts vis) (fresh 255) =
    (if bool_decide (Ts = []) then IllFormed
     else Abort "Attempted to visit empty variant", fresh 255).
Proof.
  apply (dispatch_empty_asserts bits Ts p (Storage 255 None) (fresh 255)
           (@visitor_call _ _ Z Ts vis)); reflexivity.
Defined.

Lemma assign_replaces_witness :
  ∃ (tB : Z) (i : nat) (f : val Fragile → Z),
    tag_of bits Ts Fragile = Some tB ∧
    Ts !! i = Some Fragile ∧
    handler_at vis i = Some (existT Fragile f) ∧
    assign bits Ts p Fragile bomb int_at_p =
      (if copy_throws Fragile bomb then
         (Throw,
          State (<[p := Storage tB None]> (heap int_at_p))
                (log int_at_p ++ [Dtor (InCell p) (existT Int five);
                                  CopyCtor (InCell p) (existT Fragile bomb)]))
       else
         (Ret p,
          State (<[p := Storage tB (Some (existT Fragile bomb))]>
                   (heap int_at_p))
                (log int_at_p ++
                   [Dtor (InCell p) (existT Int five);
                    CopyCtor (InCell p) (existT Fragile bomb)]))) ∧
    (assign bits Ts p Fragile bomb ;; visit bits Ts p vis) int_at_p =
      (if copy_throws Fragile bomb then
         (Throw,
          State (<[p := Storage tB None]> (heap int_at_p))
                (log int_at_p ++ [Dtor (InCell p) (existT Int five);
                                  CopyCtor (InCell p) (existT Fragile bomb)]))
       else
         (Ret (f bomb),
          State (<[p := Storage tB (Some (existT Fragile bomb))]>
                   (heap int_at_p))
                (log int_at_p ++ [Dtor (InCell p) (existT Int five);
                                  CopyCtor (InCell p) (existT Fragile bomb);
                                  CopyCtor Argument (existT Fragile bomb);
                                  Invoke i (existT Fragile bomb);
                                  Dtor Argument (existT Fragile bomb)]))).
Proof.
  apply (assign_replaces bits Ts vis Int five Fragile bomb p
           int_cell int_at_p);
    [reflexivity | compute_done | reflexivity | by exists 2].
Defined.

Lemma empty_after_default_and_clear_witness :
  (default_construct bits p ;; empty bits p) (fresh 7) =
    (Ret true,
     State (<[p := Storage (invalid_index bits) None]> (heap (fresh 7)))
           (log (fresh 7))) ∧
  (value_construct bits Ts p Int five ;; clear bits Ts p ;; empty bits p)
    (fresh 7) =
    (Ret true,
     State (<[p := Storage (invalid_index bits) None]> (heap (fresh 7)))
           (log (fresh 7) ++ [CopyCtor (InCell p) (existT Int five);
                              Dtor (InCell p) (existT Int five)])).
Proof.
  apply (empty_after_default_and_clear bits Ts Int five p (Storage 7 None)
           (fresh 7)); [reflexivity | compute_done | reflexivity | reflexivity].
Defined.

Lemma clear_idempotent_witness :
  ∃ σ1,
    clear bits Ts p int_at_p = (Ret tt, σ1) ∧
    heap σ1 !! p = Some (Storage (invalid_index bits) None) ∧
    clear bits Ts p σ1 = (Ret tt, σ1) ∧
    (clear bits Ts p ;; clear bits Ts p) int_at_p = clear bits Ts p int_at_p.
Proof.
  apply (clear_idempotent bits Ts p int_cell
           int_at_p); [reflexivity | reflexivity |].
  right. exists Int, five, 2. by split.
Defined.

Lemma copy_is_independent_witness :
  ∃ σ1,
    copy_construct bits Ts q p int_at_p = (Ret tt, σ1) ∧
    log σ1 = log int_at_p ++ [CopyCtor (InCell q) (existT Int five)] ∧
    heap σ1 !! q = Some int_cell ∧
    heap σ1 !! p = Some int_cell ∧
    (∀ c', <[q := c']> (heap σ1) !! p =
           Some int_cell) ∧
    (∀ U (u : val U),
       heap (assign bits Ts q U u σ1).2 !! p =
       Some int_cell) ∧
    heap (clear bits Ts q σ1).2 !! p =
      Some int_cell ∧
    heap (destroy bits Ts q σ1).2 !! p =
      Some int_cell.
Proof.
  apply (copy_is_independent bits Ts Int five q p (Storage 7 None)
           int_cell int_at_p);
    [reflexivity | done | reflexivity | by exists 2 | reflexivity
    | reflexivity].
Defined.

Lemma move_leaves_source_destructible_witness :
  ∃ σ1 σ2 σ3,
    move_construct bits Ts q p int_at_p = (Ret tt, σ1) ∧
    log σ1 = log int_at_p ++ [MoveCtor (InCell q) (existT Int five)] ∧
    heap σ1 !! q = Some int_cell ∧
    heap σ1 !! p =
      Some (Storage (tag int_cell)
                    (Some (existT Int (moved_from Int five)))) ∧
    destroy bits Ts p σ1 = (Ret tt, σ2) ∧
    log σ2 =
      log σ1 ++ [Dtor (InCell p) (existT Int (moved_from Int five))] ∧
    heap σ2 !! p =
      Some (Storage (tag int_cell) None) ∧
    heap σ2 !! q = Some int_cell ∧
    destroy bits Ts q σ2 = (Ret tt, σ3) ∧
    log σ3 = log σ2 ++ [Dtor (InCell q) (existT Int five)].
Proof.
  apply (move_leaves_source_destructible bits Ts Int five q p (Storage 7 None)
           int_cell int_at_p);
    [reflexivity | done | reflexivity | by exists 2 | reflexivity
    | reflexivity].
Defined.



Lemma entry_points_agree_witness :
  call bits Ts p (@visitor_call _ _ Z Ts vis) int_at_p =
    visit bits Ts p vis int_at_p ∧
  (a ← visit_accept Ts p; accept_bind bits Ts a vis) int_at_p =
    visit bits Ts p vis int_at_p ∧
  visit bits Ts p vis int_at_p =
    dispatch bits Ts p (@visitor_call _ _ Z Ts vis) int_at_p ∧
  ∃ (i : nat) (f : val Int → Z),
    handler_at vis i = Some (existT Int f) ∧
    visit bits Ts p vis int_at_p =
      (Ret (f five),
       State (heap int_at_p)
             (log int_at_p ++ [CopyCtor Argument (existT Int five);
                               Invoke i (existT Int five);
                               Dtor Argument (existT Int five)])).
Proof.
  apply (entry_points_agree bits Ts vis Int five p
           int_cell int_at_p);
    [reflexivity | reflexivity | by exists 2 | reflexivity].
Defined.
End sample_runs.

(** * Further properties of the header *)

(** ** What the [static_assert] admits *)
Section capacity.
Context `{Payload ty}.
Variable bits : Z.
Implicit Types (Ts Tail : list ty).

Lemma invalid_index_pos : 0 < bits → invalid_index bits = 2 ^ bits - 1.
Proof.
  intros Hb. unfold invalid_index, to_tag.
  assert (0 < 2 ^ bits) by (apply Z.pow_pos_nonneg; lia).
  symmetry. apply Z.mod_unique with (q := -1); lia.
Qed.

Lemma static_assert_width Tail : static_assert bits Tail = true → 0 < bits.
Proof.
  intros [Hi Hlt]%static_assert_true.
  unfold index, invalid_index, to_tag in *.
  destruct (Z.lt_trichotomy bits 0) as [Hn|[->|Hp]]; [| |done].
  - rewrite Z.pow_neg_r in * by done. rewrite !Z.mod_0_r in *. lia.
  - change (2 ^ 0) with 1 in *. rewrite !Z.mod_1_r in *. lia.
Qed.

Lemma static_assert_iff Tail :
  static_assert bits Tail = true ↔
  0 < bits ∧ Z.of_nat (length Tail) < 2 ^ bits - 1.
Proof.
  split.
  - intros Hs. assert (Hb := static_assert_width _ Hs).
    apply static_assert_true in Hs as [Hi Hlt].
    rewrite invalid_index_pos in Hlt by done. lia.
  - intros [Hb Hlt]. unfold static_assert.
    assert (index bits Tail = Z.of_nat (length Tail)) as ->.
    { unfold index, to_tag. apply Z.mod_small. lia. }
    rewrite invalid_index_pos by done.
    apply andb_true_intro. split; [by apply Z.eqb_eq | by apply Z.ltb_lt].
Qed.

(** X1: a [Tag] of [bits] bits admits the lists of at most [2 ^ bits - 1]
    types, and no other: one value of the tag is kept for the sentinel. *)
Theorem static_assert_capacity Ts :
  0 < bits →
  (instantiates bits Ts = true ↔ Z.of_nat (length Ts) ≤ 2 ^ bits - 1).
Proof.
  intros Hb. assert (0 < 2 ^ bits) by (apply Z.pow_pos_nonneg; lia).
  induction Ts as [|Head Tail IH]; cbn [instantiates length].
  - split; [lia|done].
  - rewrite andb_true_iff, static_assert_iff, IH, Nat2Z.inj_succ. lia.
Qed.

Lemma instantiates_app_l Ts U :
  instantiates bits (Ts ++ [U]) = true → instantiates bits Ts = true.
Proof.
  induction Ts as [|Head Tail IH]; [done|].
  cbn [app instantiates]. rewrite !andb_true_iff, !static_assert_iff.
  rewrite length_app. cbn [length]. intros [[Hb Hlt] Hinst].
  split; [split; [done|lia] | by apply IH].
Qed.

(** X2: the tag of a type depends on the types that follow it in the list
    and not on those before it: a type put in front leaves every other tag
    as it is, a type put at the end raises every other tag by one. *)
Theorem tags_depend_on_suffix Ts T U :
  instantiates bits (Ts ++ [U]) = true → T ∈ Ts → T ≠ U →
  ∃ t, tag_of bits Ts T = Some t ∧
       tag_of bits (U :: Ts) T = Some t ∧
       tag_of bits (Ts ++ [U]) T = Some (t + 1).
Proof.
  intros Hinst [t Ht]%(tag_of_is_Some bits) Hne. exists t.
  split; [done|]. split; [cbn [tag_of]; by rewrite decide_False|].
  induction Ts as [|Head Tail IH]; [done|].
  cbn [app tag_of] in *.
  destruct (instantiates_cons bits _ _ Hinst) as (Hi & _ & Hinst').
  destruct (decide (T = Head)) as [->|HT]; [|by apply IH].
  injection Ht as <-. f_equal. rewrite Hi.
  assert (Hinst2 := instantiates_app_l (Head :: Tail) U Hinst).
  destruct (instantiates_cons bits _ _ Hinst2) as (-> & _ & _).
  rewrite length_app. cbn [length]. lia.
Qed.
End capacity.

(** ** Edge cases of construction and assignment *)
Section edge_cases.
Context `{Payload ty}.
Variable bits : Z.
Implicit Types (Ts : list ty) (σ : state) (this rhs : loc).
Implicit Types (c r : variant_storage).

(** X3: a value of a type that is not in the list reaches the constructor
    of the empty union, whose [static_assert] rejects it: the construction
    does not compile, and nothing is written or run. *)
Theorem value_construct_undeclared Ts T (v : val T) this σ :
  T ∉ Ts → value_construct bits Ts this T v σ = (IllFormed, σ).
Proof.
  induction Ts as [|Head Tail IH]; [done|].
  intros [Hne Hin]%not_elem_of_cons. cbn [value_construct].
  rewrite decide_False by done. by apply IH.
Qed.

(** X4: on a cell that keeps the class invariant, [empty] returns [true]
    exactly when no payload is alive in it, and changes nothing. *)
Theorem empty_iff_no_payload Ts this c σ :
  instantiates bits Ts = true →
  heap σ !! this = Some c → wf_cell bits Ts c →
  empty bits this σ =
    (Ret (match payload c with None => true | Some _ => false end), σ).
Proof.
  intros Hinst Hl Hwf. unfold empty. run.
  destruct Hwf as [->|(T & x & t & Ht & ->)]; cbn [tag payload].
  - by rewrite Z.eqb_refl.
  - destruct (tag_of_bound bits _ _ _ Hinst Ht) as [_ Hlt].
    assert ((t =? invalid_index bits) = false) as -> by (apply Z.eqb_neq; lia).
    done.
Qed.

Lemma assign_empty_run Ts B (b1 : val B) tB this c σ :
  instantiates bits Ts = true → tag_of bits Ts B = Some tB →
  heap σ !! this = Some c → tag c = invalid_index bits →
  assign bits Ts this B b1 σ =
    (if copy_throws B b1 then
       (Throw,
        State (<[this := Storage tB None]> (heap σ))
              (log σ ++ [CopyCtor (InCell this) (existT B b1)]))
     else
       (Ret this,
        State (<[this := Storage tB (Some (existT B b1))]> (heap σ))
              (log σ ++ [CopyCtor (InCell this) (existT B b1)]))).
Proof.
  intros Hinst HtB Hl Hc.
  rewrite assign_declared by (apply (tag_of_is_Some bits); by eexists). run.
  rewrite (destroy_empty bits Ts c this σ) by done.
  destruct (copy_throws B b1) eqn:Hthrow.
  - by rewrite (value_construct_throw bits Ts B b1 tB this c σ).
  - by rewrite (value_construct_run bits Ts B b1 tB this c σ).
Qed.

Lemma assign_holds_run Ts A (a1 : val A) tA B (b1 : val B) tB this σ :
  instantiates bits Ts = true →
  tag_of bits Ts A = Some tA → tag_of bits Ts B = Some tB →
  heap σ !! this = Some (Storage tA (Some (existT A a1))) →
  assign bits Ts this B b1 σ =
    (if copy_throws B b1 then
       (Throw,
        State (<[this := Storage tB None]> (heap σ))
              (log σ ++ [Dtor (InCell this) (existT A a1);
                         CopyCtor (InCell this) (existT B b1)]))
     else
       (Ret this,
        State (<[this := Storage tB (Some (existT B b1))]> (heap σ))
              (log σ ++ [Dtor (InCell this) (existT A a1);
                         CopyCtor (InCell this) (existT B b1)]))).
Proof.
  intros Hinst HtA HtB Hl.
  rewrite assign_declared by (apply (tag_of_is_Some bits); by eexists). run.
  rewrite (destroy_run bits Ts A a1 tA this σ) by done.
  destruct (copy_throws B b1) eqn:Hthrow.
  - erewrite (value_construct_throw bits _ B b1 tB);
      [|done|cbn; apply lookup_insert_eq|done].
    run. by rewrite <- app_assoc.
  - erewrite (value_construct_run bits _ B b1 tB);
      [|done|cbn; apply lookup_insert_eq|done].
    run. by rewrite <- app_assoc.
Qed.

(** X5: assigning to an empty cell runs no destructor, only the copy
    constructor of the new value, and the cell then holds that value; when
    the copy constructor throws the cell is no longer empty: it has the
    tag of the new type and no payload. *)
Theorem assign_to_empty Ts B (b1 : val B) this c σ :
  instantiates bits Ts = true → B ∈ Ts →
  heap σ !! this = Some c → tag c = invalid_index bits →
  ∃ tB,
    tag_of bits Ts B = Some tB ∧
    assign bits Ts this B b1 σ =
      (if copy_throws B b1 then
         (Throw,
          State (<[this := Storage tB None]> (heap σ))
                (log σ ++ [CopyCtor (InCell this) (existT B b1)]))
       else
         (Ret this,
          State (<[this := Storage tB (Some (existT B b1))]> (heap σ))
                (log σ ++ [CopyCtor (InCell this) (existT B b1)]))).
Proof.
  intros Hinst [tB HtB]%(tag_of_is_Some bits) Hl Hc. exists tB.
  split; [done|]. by eapply assign_empty_run.
Qed.
End edge_cases.

(** ** Cells whose payload is gone while their tag stays *)
Section dead_cells.
Context `{Payload ty}.
Variable bits : Z.
Implicit Types (Ts : list ty) (σ : state) (this rhs : loc).
Implicit Types (c r : variant_storage).

Lemma destroy_dead Ts T t this σ :
  instantiates bits Ts = true → tag_of bits Ts T = Some t →
  heap σ !! this = Some (Storage t None) →
  destroy bits Ts this σ = (Undefined, σ).
Proof.
  intros Hinst Ht Hl. induction Ts as [|Head Tail IH]; [done|].
  cbn [tag_of destroy] in *.
  destruct (decide (T = Head)) as [->|Hne].
  - injection Ht as <-. unfold head_value. by run.
  - rewrite <- IH; [|by apply (instantiates_cons bits Head)|done].
    run. by rewrite (tag_of_ne_index bits Head Tail T t).
Qed.

Lemma dispatch_dead {R} Ts T t this σ (g : ∀ U, val U → M R) :
  instantiates bits Ts = true → tag_of bits Ts T = Some t →
  heap σ !! this = Some (Storage t None) →
  dispatch bits Ts this g σ = (Undefined, σ).
Proof.
  intros Hinst Ht Hl. induction Ts as [|Head Tail IH]; [done|].
  cbn [tag_of dispatch] in *.
  destruct (decide (T = Head)) as [->|Hne].
  - injection Ht as <-. unfold head_value. by run.
  - rewrite <- IH; [|by apply (instantiates_cons bits Head)|done].
    run. by rewrite (tag_of_ne_index bits Head Tail T t).
Qed.

(** X6: a cell with the tag of an alternative and no payload alive does
    not count as empty, and destroying it, clearing it, visiting it or
    assigning a value of a declared type to it uses a payload that is not
    there: each of these is undefined. *)
Theorem dead_cell_is_unusable Ts this c σ :
  instantiates bits Ts = true →
  heap σ !! this = Some c → dead bits Ts c →
  empty bits this σ = (Ret false, σ) ∧
  (destroy bits Ts this σ).1 = Undefined ∧
  (clear bits Ts this σ).1 = Undefined ∧
  (∀ R (g : ∀ U, val U → M R),
     (dispatch bits Ts this g σ).1 = Undefined) ∧
  (∀ U (u : val U), U ∈ Ts → (assign bits Ts this U u σ).1 = Undefined).
Proof.
  intros Hinst Hl (T & t & Ht & ->).
  assert (Hd := destroy_dead Ts T t this σ Hinst Ht Hl).
  split; [|split; [|split; [|split]]].
  - unfold empty. run.
    destruct (tag_of_bound bits _ _ _ Hinst Ht) as [_ Hlt].
    assert ((t =? invalid_index bits) = false) as -> by (apply Z.eqb_neq; lia).
    done.
  - by rewrite Hd.
  - unfold clear. run. by rewrite Hd.
  - intros R g. by erewrite dispatch_dead.
  - intros U u HU. rewrite assign_declared by done. run. by rewrite Hd.
Qed.

(** X7: an assignment whose copy constructor throws leaves a cell that
    kept the class invariant, empty or not, with the tag of the new type
    and no payload; the destructor and a visit of that cell are then
    undefined. *)
Theorem failed_assignment_breaks_cell Ts B (b1 : val B) this c σ :
  instantiates bits Ts = true → B ∈ Ts →
  heap σ !! this = Some c → wf_cell bits Ts c →
  copy_throws B b1 = true →
  ∃ tB σ1,
    tag_of bits Ts B = Some tB ∧
    assign bits Ts this B b1 σ = (Throw, σ1) ∧
    heap σ1 !! this = Some (Storage tB None) ∧
    destroy bits Ts this σ1 = (Undefined, σ1) ∧
    (∀ R (g : ∀ U, val U → M R),
       dispatch bits Ts this g σ1 = (Undefined, σ1)).
Proof.
  intros Hinst [tB HtB]%(tag_of_is_Some bits) Hl Hwf Hthrow. exists tB.
  assert (∃ σ1, assign bits Ts this B b1 σ = (Throw, σ1) ∧
                heap σ1 !! this = Some (Storage tB None)) as (σ1 & Has & Hl1).
  { destruct Hwf as [->|(A & a1 & tA & HtA & ->)].
    - eexists. rewrite (assign_empty_run bits Ts B b1 tB this _ σ) by done.
      rewrite Hthrow. split; [done|]. cbn. apply lookup_insert_eq.
    - eexists.
      rewrite (assign_holds_run bits Ts A a1 tA B b1 tB this σ) by done.
      rewrite Hthrow. split; [done|]. cbn. apply lookup_insert_eq. }
  exists σ1. split; [done|]. split; [done|]. split; [done|].
  split; [by eapply destroy_dead|]. intros R g. by eapply dispatch_dead.
Qed.

(** X8: the destructor does not reset the tag.  After [clear] it finds the
    sentinel and runs nothing, so the payload is destroyed once in all;
    called twice in a row, its second call destroys a payload that is no
    longer alive, which is undefined. *)
Theorem destructor_after_clear Ts T (x : val T) this c σ :
  instantiates bits Ts = true →
  heap σ !! this = Some c → holds bits Ts T x c →
  (clear bits Ts this ;; destroy bits Ts this) σ =
    (Ret tt,
     State (<[this := Storage (invalid_index bits) None]> (heap σ))
           (log σ ++ [Dtor (InCell this) (existT T x)])) ∧
  (destroy bits Ts this ;; destroy bits Ts this) σ =
    (Undefined,
     State (<[this := Storage (tag c) None]> (heap σ))
           (log σ ++ [Dtor (InCell this) (existT T x)])).
Proof.
  intros Hinst Hl (t & Ht & ->). split.
  - unfold mbind, M_bind, bind.
    rewrite (clear_run bits Ts T x t this σ) by done.
    erewrite destroy_empty; [done|done|cbn; apply lookup_insert_eq|done].
  - unfold mbind, M_bind, bind.
    rewrite (destroy_run bits Ts T x t this σ) by done.
    erewrite (destroy_dead Ts T t); [done|done|done|].
    cbn. apply lookup_insert_eq.
Qed.

End dead_cells.

(** ** Which cells a member function touches *)
Section leaving.
Context `{Payload ty}.
Implicit Types (σ : state) (l this rhs : loc) (c : variant_storage).

Lemma leaves_bind {A B} l (m : M A) (f : A → M B) :
  leaves l m → (∀ a, leaves l (f a)) → leaves l (m ≫= f).
Proof.
  intros Hm Hf σ. unfold mbind, M_bind, bind.
  specialize (Hm σ). destruct (m σ) as [[a| | | |] σ']; cbn in *; [|done..].
  rewrite <- Hm. by apply Hf.
Qed.

Lemma leaves_pure {A} l (o : outcome A) : leaves l (λ σ, (o, σ)).
Proof. by intros σ. Qed.

Lemma leaves_emit l e : leaves l (emit e).
Proof. by intros σ. Qed.

Lemma leaves_assert l b msg : leaves l (assert_ b msg).
Proof. intros σ. unfold assert_. by destruct b. Qed.

Lemma leaves_load l l' : leaves l (load l').
Proof. intros σ. unfold load. by destruct (heap σ !! l'). Qed.

Lemma leaves_store l l' c : l ≠ l' → leaves l (store l' c).
Proof.
  intros Hne σ. unfold store. destruct (heap σ !! l'); [|done].
  cbn. by rewrite lookup_insert_ne.
Qed.

Lemma leaves_if {A} l (b : bool) (m1 m2 : M A) :
  leaves l m1 → leaves l m2 → leaves l (if b then m1 else m2).
Proof. by destruct b. Qed.

Lemma leaves_decide {A} l P `{Decision P} (m1 m2 : M A) :
  leaves l m1 → leaves l m2 → leaves l (if decide P then m1 else m2).
Proof. by destruct (decide P). Qed.
End leaving.

Ltac leave :=
  repeat first
    [ apply leaves_bind; [|intros ?]
    | apply leaves_if
    | apply leaves_decide
    | apply leaves_pure
    | apply leaves_emit
    | apply leaves_assert
    | apply leaves_load
    | apply leaves_store; done
    | match goal with
      | |- leaves _ (match ?x with _ => _ end) => destruct x
      end ].

Section leaving_members.
Context `{Payload ty}.
Variable bits : Z.
Implicit Types (Ts : list ty) (σ : state) (l this rhs : loc).
Implicit Types (c : variant_storage).

Lemma leaves_head_value l Head l' : leaves l (head_value Head l').
Proof. unfold head_value. leave. Qed.

Lemma leaves_set_payload l l' o : l ≠ l' → leaves l (set_payload l' o).
Proof. intros Hne. unfold set_payload. leave. Qed.

Lemma leaves_copy_value l this o : l ≠ this → leaves l (copy_value this o).
Proof.
  intros Hne. unfold copy_value. leave; eauto using leaves_set_payload.
Qed.

Lemma leaves_move_value l this rhs o :
  l ≠ this → l ≠ rhs → leaves l (move_value this rhs o).
Proof.
  intros Hne Hne'. unfold move_value. leave; eauto using leaves_set_payload.
Qed.

Lemma leaves_value_construct l Ts this T (v : val T) :
  l ≠ this → leaves l (value_construct bits Ts this T v).
Proof.
  intros Hne. induction Ts as [|Head Tail IH]; cbn [value_construct];
    leave; eauto using leaves_copy_value.
Qed.

Lemma leaves_destroy l Ts this : l ≠ this → leaves l (destroy bits Ts this).
Proof.
  intros Hne. induction Ts as [|Head Tail IH]; cbn [destroy]; leave;
    eauto using leaves_head_value, leaves_set_payload.
Qed.

Lemma leaves_head_tag l this constructed :
  leaves l (head_tag this constructed).
Proof. unfold head_tag. leave. Qed.

Lemma leaves_copy_construct l Ts this rhs :
  l ≠ this → leaves l (copy_construct bits Ts this rhs).
Proof.
  intros Hne. unfold copy_construct. apply leaves_bind; [|intros ?; leave].
  induction Ts as [|Head Tail IH]; cbn [copy_members]; leave;
    eauto using leaves_head_value, leaves_copy_value, leaves_head_tag.
Qed.

Lemma leaves_move_construct l Ts this rhs :
  l ≠ this → l ≠ rhs → leaves l (move_construct bits Ts this rhs).
Proof.
  intros Hne Hne'. unfold move_construct.
  apply leaves_bind; [|intros ?; leave].
  induction Ts as [|Head Tail IH]; cbn [move_members]; leave;
    eauto using leaves_head_value, leaves_move_value, leaves_head_tag.
Qed.

Lemma leaves_dispatch {R} l Ts this (g : ∀ T, val T → M R) :
  (∀ T x, leaves l (g T x)) → leaves l (dispatch bits Ts this g).
Proof.
  intros Hg. induction Ts as [|Head Tail IH]; cbn [dispatch]; leave;
    eauto using leaves_head_value.
Qed.

(** X10: of its own accord a visit writes to no cell, however it ends:
    [s (v)], [s.visit (v)] and [s.visit<R> () >>= v] leave the heap as it
    is whenever the calls of the visitor do, and [empty] always does. *)
Theorem visiting_reads_only {R} Ts (vis : variant_visitor R Ts)
    (g : ∀ T, val T → M R) this σ :
  (∀ T x σ', heap (g T x σ').2 = heap σ') →
  (∀ T x σ', heap (visitor_call vis T x σ').2 = heap σ') →
  heap (call bits Ts this g σ).2 = heap σ ∧
  heap (visit bits Ts this vis σ).2 = heap σ ∧
  heap (accept_bind bits Ts (VisitorAccept this) vis σ).2 = heap σ ∧
  heap (empty bits this σ).2 = heap σ.
Proof.
  intros Hg Hvis.
  assert (∀ l, leaves l (dispatch bits Ts this g)) as Hd.
  { intros l. apply leaves_dispatch. intros T x σ'. by rewrite Hg. }
  assert (∀ l, leaves l (dispatch bits Ts this (@visitor_call _ _ R Ts vis)))
    as Hv.
  { intros l. apply leaves_dispatch. intros T x σ'. by rewrite Hvis. }
  repeat split; apply map_eq; intros l.
  - destruct Ts; [done|]. apply Hd.
  - destruct Ts; [done|]. apply Hv.
  - apply Hv.
  - unfold empty. revert σ. change (leaves l (load this ≫= λ c,
      mret (tag c =? invalid_index bits))). leave.
Qed.

(** X11: construction, assignment, [clear] and the destructor write to the
    cell they are called on and to no other; copy construction leaves its
    source as it is, and move construction writes to the new cell and to
    its source only. *)
Theorem members_write_their_cell Ts T (v : val T) l this rhs :
  l ≠ this → l ≠ rhs → this ≠ rhs →
  leaves l (default_construct bits this) ∧
  leaves l (value_construct bits Ts this T v) ∧
  leaves l (assign bits Ts this T v) ∧
  leaves l (clear bits Ts this) ∧
  leaves l (destroy bits Ts this) ∧
  leaves l (copy_construct bits Ts this rhs) ∧
  leaves rhs (copy_construct bits Ts this rhs) ∧
  leaves l (move_construct bits Ts this rhs).
Proof.
  intros Hne Hne' Hne''. assert (rhs ≠ this) by done.
  split; [unfold default_construct; leave|].
  split; [by apply leaves_value_construct|].
  split.
  { unfold assign. leave;
      eauto using leaves_destroy, leaves_value_construct. }
  split.
  { unfold clear, set_tag. leave; eauto using leaves_destroy. }
  split; [by apply leaves_destroy|].
  split; [by apply leaves_copy_construct|].
  split; [by apply leaves_copy_construct|].
  by apply leaves_move_construct.
Qed.
End leaving_members.

(** ** A type that is listed twice *)
Section repeated_types.
Context `{Payload ty}.
Variable bits : Z.
Implicit Types (Ts : list ty).

(** X12: the header accepts a list in which a type occurs more than once,
    and resolves the type to its first occurrence: the value constructor
    stores the tag of that position and the visitor calls the handler at
    that position, so the tag and the handler of a later occurrence are
    never used. *)
Theorem repeated_type_first_occurrence {R} Ts (vis : variant_visitor R Ts) T :
  instantiates bits Ts = true → T ∈ Ts →
  ∃ (i : nat) (f : val T → R),
    Ts !! i = Some T ∧
    (∀ j : nat, (j < i)%nat → Ts !! j ≠ Some T) ∧
    tag_of bits Ts T = Some (Z.of_nat (length Ts) - 1 - Z.of_nat i) ∧
    overload vis 0 T = Some (i, f) ∧
    handler_at vis i = Some (existT T f).
Proof.
  intros Hinst [t Ht]%(tag_of_is_Some bits).
  destruct (tag_of_position bits Ts T t Hinst Ht) as (i & Hi & Hfirst & Hti).
  destruct (overload_tag_of bits Ts vis 0 T t Hinst Ht)
    as (i' & f & Ho & Hh & _ & Hti').
  assert (i' = i) as -> by lia.
  exists i, f. rewrite Ht, Hti. by repeat split.
Qed.
End repeated_types.

(** ** Visiting after a copy or a move *)
Section visit_after.
Context `{Payload ty}.
Variable bits : Z.
Implicit Types (Ts : list ty) (σ : state) (l this rhs : loc).
Implicit Types (c r : variant_storage).

Lemma visit_run {R} Ts (vis : variant_visitor R Ts) T (x : val T) t i f l σ :
  instantiates bits Ts = true → tag_of bits Ts T = Some t →
  overload vis 0 T = Some (i, f) →
  heap σ !! l = Some (Storage t (Some (existT T x))) →
  copy_throws T x = false →
  visit bits Ts l vis σ =
    (Ret (f x),
     State (heap σ)
           (log σ ++ [CopyCtor Argument (existT T x); Invoke i (existT T x);
                      Dtor Argument (existT T x)])).
Proof.
  intros Hinst Ht Ho Hl Hc. destruct Ts as [|Head Tail]; [done|].
  unfold visit. rewrite (dispatch_run bits _ T x t) by done.
  unfold visitor_call. rewrite Ho. by apply call_head_fun_run.
Qed.

(** X13: after a move construction the source is not empty: it still has
    its tag, and a visit of it runs the handler of its type on the
    moved-from value, while a visit of the new cell runs that handler on
    the value that was moved. *)
Theorem moved_from_source_is_visited {R} Ts (vis : variant_visitor R Ts)
    T (x : val T) this rhs c r σ :
  instantiates bits Ts = true → this ≠ rhs →
  heap σ !! rhs = Some r → holds bits Ts T x r →
  heap σ !! this = Some c → move_throws T x = false →
  copy_throws T x = false → copy_throws T (moved_from T x) = false →
  ∃ σ1 (i : nat) (f : val T → R),
    move_construct bits Ts this rhs σ = (Ret tt, σ1) ∧
    handler_at vis i = Some (existT T f) ∧
    empty bits rhs σ1 = (Ret false, σ1) ∧
    visit bits Ts this vis σ1 =
      (Ret (f x),
       State (heap σ1)
             (log σ1 ++ [CopyCtor Argument (existT T x);
                         Invoke i (existT T x);
                         Dtor Argument (existT T x)])) ∧
    visit bits Ts rhs vis σ1 =
      (Ret (f (moved_from T x)),
       State (heap σ1)
             (log σ1 ++ [CopyCtor Argument (existT T (moved_from T x));
                         Invoke i (existT T (moved_from T x));
                         Dtor Argument (existT T (moved_from T x))])).
Proof.
  intros Hinst Hne Hr (t & Ht & ->) Hl Hm Hc Hc'.
  assert (rhs ≠ this) as Hne' by done.
  destruct (overload_tag_of bits Ts vis 0 T t Hinst Ht)
    as (i & f & Ho & Hh & _ & _).
  eexists. exists i, f.
  split; [by eapply move_construct_run|]. split; [done|].
  split; [|split].
  - unfold empty. run.
    destruct (tag_of_bound bits _ _ _ Hinst Ht) as [_ Hlt].
    assert ((t =? invalid_index bits) = false) as -> by (apply Z.eqb_neq; lia).
    done.
  - eapply (visit_run Ts vis T x t); [done..| |done].
    cbn. by rewrite lookup_insert_ne, lookup_insert_eq.
  - eapply (visit_run Ts vis T (moved_from T x) t); [done..| |done].
    cbn. apply lookup_insert_eq.
Qed.

(** X14: after a copy construction a visit of the copy and a visit of the
    source are the same run: the same handler, on the same value, with the
    same result. *)
Theorem copy_is_visited_like_source {R} Ts (vis : variant_visitor R Ts)
    T (x : val T) this rhs c r σ :
  instantiates bits Ts = true → this ≠ rhs →
  heap σ !! rhs = Some r → holds bits Ts T x r →
  heap σ !! this = Some c → copy_throws T x = false →
  ∃ σ1 (i : nat) (f : val T → R),
    copy_construct bits Ts this rhs σ = (Ret tt, σ1) ∧
    handler_at vis i = Some (existT T f) ∧
    visit bits Ts this vis σ1 = visit bits Ts rhs vis σ1 ∧
    visit bits Ts rhs vis σ1 =
      (Ret (f x),
       State (heap σ1)
             (log σ1 ++ [CopyCtor Argument (existT T x);
                         Invoke i (existT T x);
                         Dtor Argument (existT T x)])).
Proof.
  intros Hinst Hne Hr (t & Ht & ->) Hl Hc.
  assert (rhs ≠ this) as Hne' by done.
  destruct (overload_tag_of bits Ts vis 0 T t Hinst Ht)
    as (i & f & Ho & Hh & _ & _).
  eexists. exists i, f.
  split; [by eapply copy_construct_run|]. split; [done|].
  assert (∀ l, l = this ∨ l = rhs →
    visit bits Ts l vis
      (State (<[this := Storage t (Some (existT T x))]> (heap σ))
             (log σ ++ [CopyCtor (InCell this) (existT T x)])) =
    (Ret (f x),
     State (<[this := Storage t (Some (existT T x))]> (heap σ))
           ((log σ ++ [CopyCtor (InCell this) (existT T x)]) ++
              [CopyCtor Argument (existT T x); Invoke i (existT T x);
               Dtor Argument (existT T x)]))) as Hvisit.
  { intros l Hl'. eapply (visit_run Ts vis T x t); [done..| |done].
    cbn. destruct Hl' as [->| ->];
      [apply lookup_insert_eq | by rewrite lookup_insert_ne]. }
  split; [|apply Hvisit; by right].
  rewrite !Hvisit by tauto. done.
Qed.
End visit_after.

(** ** The further properties on the sample variants *)
Section more_sample_runs.
Import Sample.

Lemma static_assert_capacity_witness :
  instantiates bits Ts = true ↔ Z.of_nat (length Ts) ≤ 2 ^ bits - 1.
Proof. apply (static_assert_capacity bits Ts). reflexivity. Defined.

Lemma tags_depend_on_suffix_witness :
  ∃ t, tag_of bits Ts_short Flag = Some t ∧
       tag_of bits (Fragile :: Ts_short) Flag = Some t ∧
       tag_of bits (Ts_short ++ [Fragile]) Flag = Some (t + 1).
Proof.
  apply (tags_depend_on_suffix bits Ts_short Flag Fragile);
    [reflexivity | compute_done | done].
Defined.

Lemma value_construct_undeclared_witness :
  value_construct bits Ts_short p Fragile bomb (fresh 7) =
    (IllFormed, fresh 7).
Proof.
  apply (value_construct_undeclared bits Ts_short Fragile bomb p (fresh 7)).
  compute_done.
Defined.

Lemma empty_iff_no_payload_witness :
  empty bits p int_at_p = (Ret false, int_at_p).
Proof.
  apply (empty_iff_no_payload bits Ts p int_cell int_at_p);
    [reflexivity | reflexivity |].
  right. exists Int, five, 2. by split.
Defined.

Lemma assign_to_empty_witness :
  ∃ tB,
    tag_of bits Ts Int = Some tB ∧
    assign bits Ts p Int five (empty_at_p 7) =
      (if copy_throws Int five then
         (Throw,
          State (<[p := Storage tB None]> (heap (empty_at_p 7)))
                (log (empty_at_p 7) ++ [CopyCtor (InCell p) (existT Int five)]))
       else
         (Ret p,
          State (<[p := Storage tB (Some (existT Int five))]>
                   (heap (empty_at_p 7)))
                (log (empty_at_p 7) ++
                   [CopyCtor (InCell p) (existT Int five)]))).
Proof.
  apply (assign_to_empty bits Ts Int five p (Storage 255 None)
           (empty_at_p 7)); [reflexivity | compute_done | reflexivity..].
Defined.

Lemma dead_cell_is_unusable_witness :
  empty bits p dead_at_p = (Ret false, dead_at_p) ∧
  (destroy bits Ts p dead_at_p).1 = Undefined ∧
  (clear bits Ts p dead_at_p).1 = Undefined ∧
  (∀ R (g : ∀ U, val U → M R),
     (dispatch bits Ts p g dead_at_p).1 = Undefined) ∧
  (∀ U (u : val U),
     U ∈ Ts → (assign bits Ts p U u dead_at_p).1 = Undefined).
Proof.
  apply (dead_cell_is_unusable bits Ts p (Storage 2 None) dead_at_p);
    [reflexivity | reflexivity |].
  exists Int, 2. by split.
Defined.

Lemma failed_assignment_breaks_cell_witness :
  ∃ tB σ1,
    tag_of bits Ts Fragile = Some tB ∧
    assign bits Ts p Fragile bomb int_at_p = (Throw, σ1) ∧
    heap σ1 !! p = Some (Storage tB None) ∧
    destroy bits Ts p σ1 = (Undefined, σ1) ∧
    (∀ R (g : ∀ U, val U → M R),
       dispatch bits Ts p g σ1 = (Undefined, σ1)).
Proof.
  apply (failed_assignment_breaks_cell bits Ts Fragile bomb p int_cell
           int_at_p);
    [reflexivity | compute_done | reflexivity | | reflexivity].
  right. exists Int, five, 2. by split.
Defined.

Lemma destructor_after_clear_witness :
  (clear bits Ts p ;; destroy bits Ts p) int_at_p =
    (Ret tt,
     State (<[p := Storage (invalid_index bits) None]> (heap int_at_p))
           (log int_at_p ++ [Dtor (InCell p) (existT Int five)])) ∧
  (destroy bits Ts p ;; destroy bits Ts p) int_at_p =
    (Undefined,
     State (<[p := Storage (tag int_cell) None]> (heap int_at_p))
           (log int_at_p ++ [Dtor (InCell p) (existT Int five)])).
Proof.
  apply (destructor_after_clear bits Ts Int five p int_cell int_at_p);
    [reflexivity | reflexivity | by exists 2].
Defined.


Lemma visiting_reads_only_witness :
  heap (call bits Ts p thrower int_at_p).2 = heap int_at_p ∧
  heap (visit bits Ts p vis int_at_p).2 = heap int_at_p ∧
  heap (accept_bind bits Ts (VisitorAccept p) vis int_at_p).2 =
    heap int_at_p ∧
  heap (empty bits p int_at_p).2 = heap int_at_p.
Proof.
  apply (visiting_reads_only bits Ts vis thrower p int_at_p).
  - reflexivity.
  - intros T x σ'. destruct T; try destruct x; reflexivity.
Defined.

Lemma members_write_their_cell_witness :
  leaves 3%nat (default_construct bits p) ∧
  leaves 3%nat (value_construct bits Ts p Int five) ∧
  leaves 3%nat (assign bits Ts p Int five) ∧
  leaves 3%nat (clear bits Ts p) ∧
  leaves 3%nat (destroy bits Ts p) ∧
  leaves 3%nat (copy_construct bits Ts p q) ∧
  leaves q (copy_construct bits Ts p q) ∧
  leaves 3%nat (move_construct bits Ts p q).
Proof.
  apply (members_write_their_cell bits Ts Int five 3%nat p q); done.
Defined.

Lemma repeated_type_first_occurrence_witness :
  ∃ (i : nat) (f : val Int → Z),
    Ts_twice !! i = Some Int ∧
    (∀ j : nat, (j < i)%nat → Ts_twice !! j ≠ Some Int) ∧
    tag_of bits Ts_twice Int =
      Some (Z.of_nat (length Ts_twice) - 1 - Z.of_nat i) ∧
    overload vis_twice 0 Int = Some (i, f) ∧
    handler_at vis_twice i = Some (existT Int f).
Proof.
  apply (repeated_type_first_occurrence bits Ts_twice vis_twice Int);
    [reflexivity | compute_done].
Defined.

Lemma moved_from_source_is_visited_witness :
  ∃ σ1 (i : nat) (f : val Int → Z),
    move_construct bits Ts q p int_at_p = (Ret tt, σ1) ∧
    handler_at vis i = Some (existT Int f) ∧
    empty bits p σ1 = (Ret false, σ1) ∧
    visit bits Ts q vis σ1 =
      (Ret (f five),
       State (heap σ1)
             (log σ1 ++ [CopyCtor Argument (existT Int five);
                         Invoke i (existT Int five);
                         Dtor Argument (existT Int five)])) ∧
    visit bits Ts p vis σ1 =
      (Ret (f (moved_from Int five)),
       State (heap σ1)
             (log σ1 ++ [CopyCtor Argument (existT Int (moved_from Int five));
                         Invoke i (existT Int (moved_from Int five));
                         Dtor Argument (existT Int (moved_from Int five))])).
Proof.
  apply (moved_from_source_is_visited bits Ts vis Int five q p
           (Storage 7 None) int_cell int_at_p);
    [reflexivity | done | reflexivity | by exists 2 | reflexivity..].
Defined.

Lemma copy_is_visited_like_source_witness :
  ∃ σ1 (i : nat) (f : val Int → Z),
    copy_construct bits Ts q p int_at_p = (Ret tt, σ1) ∧
    handler_at vis i = Some (existT Int f) ∧
    visit bits Ts q vis σ1 = visit bits Ts p vis σ1 ∧
    visit bits Ts p vis σ1 =
      (Ret (f five),
       State (heap σ1)
             (log σ1 ++ [CopyCtor Argument (existT Int five);
                         Invoke i (existT Int five);
                         Dtor Argument (existT Int five)])).
Proof.
  apply (copy_is_visited_like_source bits Ts vis Int five q p
           (Storage 7 None) int_cell int_at_p);
    [reflexivity | done | reflexivity | by exists 2 | reflexivity..].
Defined.
End more_sample_runs.
